(** * publang: embedding, retry and ranking pipeline

    A shallow embedding of [publang/utils/oai.py], [publang/search/embed.py]
    and [publang/search/query.py], with the properties of the retry policy,
    the embedding client, the embedding pipeline and the query engine. *)

From Stdlib Require Import ZArith Lia Sorted Permutation.
From stdpp Require Import base list strings gmap.

Open Scope string_scope.
Open Scope list_scope.

(** ** Exceptions and results *)

(** The exception classes the modelled code can see.  The first four are the
    classes listed in the [retry_if_exception_type] tuple of [oai.py]. *)
Inductive exn : Type :=
  | APIError
  | APIConnectionError
  | RateLimitError
  | Timeout
  | OtherError (msg : string)
  | RetryError (last : exn)
  | IndexError
  | ValueError (msg : string)
  | UnboundLocalError (name : string).

Inductive result (A : Type) : Type :=
  | Ok (a : A)
  | Raise (e : exn).
Arguments Ok {A} a.
Arguments Raise {A} e.

#[export] Instance result_bind : MBind result := fun A B k r =>
  match r with
  | Ok a => k a
  | Raise e => Raise e
  end.
#[export] Instance result_ret : MRet result := fun A a => Ok a.
#[export] Instance result_fmap : FMap result := fun A B f r =>
  match r with
  | Ok a => Ok (f a)
  | Raise e => Raise e
  end.

(** ** Numbers as Python compares them *)

(** [sorted] compares tuples with [==] and [<] of their components. *)
Class PyOrd (A : Type) := {
  py_eq : A -> A -> bool;
  py_lt : A -> A -> bool
}.

(** The comparisons form a strict total order (true of floats without NaN). *)
Class TotalOrd (A : Type) `{PyOrd A} : Prop := {
  py_eq_spec : forall x y : A, py_eq x y = true <-> x = y;
  py_lt_irrefl : forall x : A, py_lt x x = false;
  py_lt_trans : forall x y z : A,
    py_lt x y = true -> py_lt y z = true -> py_lt x z = true;
  py_lt_total : forall x y : A,
    py_lt x y = false -> py_lt y x = false -> x = y
}.

#[export] Instance Z_PyOrd : PyOrd Z := {| py_eq := Z.eqb; py_lt := Z.ltb |}.

(** ** Python list helpers *)

(** [enumerate(l)], counting from [n]. *)
Fixpoint enumerate_from {A} (n : nat) (l : list A) : list (nat * A) :=
  match l with
  | [] => []
  | x :: l' => (n, x) :: enumerate_from (S n) l'
  end.

Definition enumerate {A} (l : list A) : list (nat * A) := enumerate_from 0 l.

(** [l[i] = x]; an index past the end raises. *)
Definition list_setitem {A} (l : list A) (i : nat) (x : A) : result (list A) :=
  if decide (i < length l) then Ok (<[i:=x]> l) else Raise IndexError.

(** [sorted(l)]: a stable sort that only asks [lt]. *)
Section Sorted.
Context {A : Type} (lt : A -> A -> bool).

Fixpoint insert_sorted (x : A) (l : list A) : list A :=
  match l with
  | [] => [x]
  | y :: l' => if lt y x then y :: insert_sorted x l' else x :: y :: l'
  end.

Definition sorted (l : list A) : list A := foldr insert_sorted [] l.
End Sorted.

(** ** [_rank_numbers] (the same text in [query.py] and [embed.py]) *)

(** Comparison of the tuples [(num, i)]: the first components decide unless
    they are equal. *)
Definition tuple_lt `{PyOrd A} (p q : A * nat) : bool :=
  if py_eq p.1 q.1 then Nat.ltb p.2 q.2 else py_lt p.1 q.1.

(** The loop [for rank, (num, index) in enumerate(ranked_numbers)]. *)
Fixpoint assign_ranks {A} (ranked : list (nat * (A * nat))) (ranks : list nat)
  : result (list nat) :=
  match ranked with
  | [] => Ok ranks
  | (rank, (_, index)) :: rest =>
      ranks' ← list_setitem ranks index rank; assign_ranks rest ranks'
  end.

Definition _rank_numbers `{PyOrd A} (numbers : list A) : result (list nat) :=
  let ranked_numbers :=
    sorted tuple_lt (map (fun '(i, num) => (num, i)) (enumerate numbers)) in
  let ranks := replicate (length numbers) 0 in
  assign_ranks (enumerate ranked_numbers) ranks.

(** ** The world the code acts on *)

(** What the remote provider has been asked so far ([requests], oldest
    first, one entry per attempt), which inputs the embedding client was
    called with ([client_calls]) and the calls of [warnings.warn], each with
    the exception its message quotes ([warnings]).  What the warnings
    filter then shows of these calls is not part of the code: as Python
    comes, a message repeated from one place is shown once. *)
Record world := World {
  requests : list (string * string);
  client_calls : list string;
  warnings : list exn
}.

Definition empty_world : world := World [] [] [].

(** Computations that act on the world and may raise. *)
Definition M (A : Type) : Type := world -> result A * world.

Definition ret {A} (a : A) : M A := fun w => (Ok a, w).
Definition raise {A} (e : exn) : M A := fun w => (Raise e, w).
Definition bind {A B} (m : M A) (k : A -> M B) : M B := fun w =>
  match m w with
  | (Ok a, w') => k a w'
  | (Raise e, w') => (Raise e, w')
  end.
Definition lift {A} (r : result A) : M A := fun w => (r, w).

Notation "'let*' x ':=' m 'in' k" := (bind m (fun x => k))
  (at level 10, x pattern, m at level 100, k at level 200).

(** A [try ... except Exception as e] block around [m]. *)
Definition try_except {A} (m : M A) (handler : exn -> M A) : M A := fun w =>
  match m w with
  | (Ok a, w') => (Ok a, w')
  | (Raise e, w') => handler e w'
  end.

(** The provider handle: [client.embeddings.create(input=, model=)].  Its
    answer may depend on everything it was asked before. *)
Record client (vec : Type) := Client {
  respond : list (string * string) -> string -> string -> result vec
}.
Arguments respond {vec} _ _ _ _.

Definition embeddings_create {vec} (c : client vec) (input model : string)
  : M vec := fun w =>
  (respond c (requests w) input model,
   World (requests w ++ [(input, model)]) (client_calls w) (warnings w)).

(** The environment: [PUBLANG_RETRY_ATTEMPTS] after [int(...)] and
    [os.getenv("PUBLANG_WARN_ON_FAILURE", False)]. *)
Record config := Config {
  retry_attempts : Z;
  warn_on_failure : option string
}.

Definition default_config : config := Config 50 None.

(** Truth value of what [os.getenv] gave: [False] and the empty string are
    false, any other string is true. *)
Definition truthy (v : option string) : bool :=
  match v with
  | None => false
  | Some s => negb (String.eqb s "")
  end.

(** ** [oai.py]: the retry policy *)

(** [retry_if_exception_type((APIError, APIConnectionError, RateLimitError,
    Timeout))]. *)
Definition retryable (e : exn) : bool :=
  match e with
  | APIError | APIConnectionError | RateLimitError | Timeout => true
  | _ => false
  end.

(** The loop of tenacity's [retry], with [more] attempts left after this
    one: a success or an exception outside the tuple leaves the loop, an
    exception of the tuple on the last attempt raises [RetryError].  The
    random wait between two attempts changes no value and is left out. *)
Fixpoint retrying {A} (more : nat) (func : M A) : M A := fun w =>
  match func w with
  | (Ok a, w') => (Ok a, w')
  | (Raise e, w') =>
      if retryable e then
        match more with
        | O => (Raise (RetryError e), w')
        | S more' => retrying more' func w'
        end
      else (Raise e, w')
  end.

(** [reexecutor] is wrapped by [retry_openai] only when
    [retry_attempts > 1]. *)
Definition reexecutor {A} (cfg : config) (func : M A) : M A :=
  if (1 <? retry_attempts cfg)%Z
  then retrying (Z.to_nat (retry_attempts cfg) - 1) func
  else func.

(** ** [oai.py]: the embedding client *)

Definition warn (e : exn) : M unit := fun w =>
  (Ok tt, World (requests w) (client_calls w) (warnings w ++ [e])).

Definition note_client_call (input : string) : M unit := fun w =>
  (Ok tt, World (requests w) (client_calls w ++ [input]) (warnings w)).

(** [None] is Python's [None]: the value returned in place of an
    embedding. *)
Definition get_openai_embedding {vec} (cfg : config) (c : client vec)
    (input model : string) : M (option vec) :=
  let* _ := note_client_call input in
  try_except
    (let* resp := reexecutor cfg (embeddings_create c input model) in
     ret (Some resp))
    (fun e =>
       if truthy (warn_on_failure cfg)
       then let* _ := warn e in ret None
       else raise e).

Definition default_model : string := "text-embedding-ada-002".

(** ** Documents, chunks and tables *)

(** An article: a dict with keys [pmcid] and [text]. *)
Record article := Article {
  art_pmcid : string;
  art_text : string
}.

(** What [split_pmc_document] yields for one span of text. *)
Record chunk := Chunk {
  ch_content : string;
  ch_start : Z;
  ch_end : Z
}.

(** A chunk with its [embedding] and [pmcid] keys set: one row of the
    embedded-chunk table. *)
Record row (vec : Type) := Row {
  pmcid : string;
  content : string;
  start_char : Z;
  end_char : Z;
  embedding : option vec
}.
Arguments Row {vec} _ _ _ _ _.
Arguments pmcid {vec} _.
Arguments content {vec} _.
Arguments start_char {vec} _.
Arguments end_char {vec} _.
Arguments embedding {vec} _.

(** A DataFrame of embedded chunks: its rows in their order, each under
    its label in the index of the table.  The labels are whatever the
    caller's table has; nothing makes them distinct. *)
Abbreviation dataframe L vec := (list (L * row vec)).

(** [pd.DataFrame(rows)]: the table of a list of rows, with the default
    index 0, 1, ... *)
Definition DataFrame {vec} (rows : list (row vec)) : dataframe nat vec :=
  imap (fun i r => (i, r)) rows.

(** One row of the result table.  [index] is the label of the row, which
    [copy] takes over from the input table and [sort_values] carries
    along. *)
Record ranked_row (L A : Type) := RankedRow {
  index : L;
  r_pmcid : string;
  r_content : string;
  r_start_char : Z;
  r_end_char : Z;
  distance : A;
  rank : nat
}.
Arguments RankedRow {L A} _ _ _ _ _ _ _.
Arguments index {L A} _.
Arguments r_pmcid {L A} _.
Arguments r_content {L A} _.
Arguments r_start_char {L A} _.
Arguments r_end_char {L A} _.
Arguments distance {L A} _.
Arguments rank {L A} _.

(** ** [embed.py]: the embedding pipeline *)

Section Pipeline.
Context {vec : Type}.
(** The chunker, [publang.utils.split.split_pmc_document]. *)
Variable split_pmc_document : string -> Z -> Z -> list chunk.
Variables (cfg : config) (c : client vec).
Variables (model : string) (min_chars max_chars : Z).

(** The loop [for chunk in split_doc] of [_split_embed], with the rows
    finished so far in [done]. *)
Fixpoint embed_chunks (art_id : string) (todo : list chunk)
    (done : list (row vec)) : M (list (row vec)) :=
  match todo with
  | [] => ret done
  | ch :: todo' =>
      let* res := get_openai_embedding cfg c (ch_content ch) model in
      embed_chunks art_id todo'
        (done ++ [Row art_id (ch_content ch) (ch_start ch) (ch_end ch) res])
  end.

Definition _split_embed (a : article) : M (list (row vec)) :=
  let split_doc := split_pmc_document (art_text a) min_chars max_chars in
  embed_chunks (art_pmcid a) split_doc [].

(** One worker thread of the pool, in the middle of [_split_embed]. *)
Record thread := Thread {
  th_future : nat;
  th_pmcid : string;
  th_todo : list chunk;
  th_done : list (row vec)
}.

(** The pool: submitted work not yet started, the threads at work, the
    futures already resolved, and the world they all act on. *)
Record pool := Pool {
  queue : list (nat * article);
  running : list thread;
  futures : list (nat * result (list (row vec)));
  pool_world : world
}.

(** What the scheduler may do next: let an idle worker take the oldest
    queued work item, or let the [k]-th thread at work take its next step
    (one call of the embedding client, or its return). *)
Inductive choice := Start | Advance (k : nat).

Definition start_thread (i : nat) (a : article) : thread :=
  Thread i (art_pmcid a)
    (split_pmc_document (art_text a) min_chars max_chars) [].

Definition advance_thread (t : thread) (w : world)
  : (thread + result (list (row vec))) * world :=
  match th_todo t with
  | [] => (inr (Ok (th_done t)), w)
  | ch :: todo' =>
      match get_openai_embedding cfg c (ch_content ch) model w with
      | (Ok res, w') =>
          (inl (Thread (th_future t) (th_pmcid t) todo'
                  (th_done t ++ [Row (th_pmcid t) (ch_content ch)
                                   (ch_start ch) (ch_end ch) res])), w')
      | (Raise e, w') => (inr (Raise e), w')
      end
  end.

Definition pool_step (workers : nat) (ch : choice) (p : pool)
  : option pool :=
  match ch with
  | Start =>
      match queue p with
      | (i, a) :: q =>
          if decide (length (running p) < workers)
          then Some (Pool q (running p ++ [start_thread i a])
                       (futures p) (pool_world p))
          else None
      | [] => None
      end
  | Advance k =>
      match running p !! k with
      | Some t =>
          match advance_thread t (pool_world p) with
          | (inl t', w') =>
              Some (Pool (queue p) (<[k:=t']> (running p)) (futures p) w')
          | (inr r, w') =>
              Some (Pool (queue p) (delete k (running p))
                      ((th_future t, r) :: futures p) w')
          end
      | None => None
      end
  end.

Fixpoint run_pool (workers : nat) (sched : list choice) (p : pool)
  : option pool :=
  match sched with
  | [] => Some p
  | ch :: sched' =>
      match pool_step workers ch p with
      | Some p' => run_pool workers sched' p'
      | None => None
      end
  end.

Definition submit_all (articles : list article) (w : world) : pool :=
  Pool (enumerate articles) [] [] w.

Definition future_result (p : pool) (i : nat)
  : option (result (list (row vec))) :=
  (fun f => f.2.2) <$> list_find (fun f => f.1 = i) (futures p).

(** The loop [for future in futures: results += future.result()]. *)
Fixpoint gather (p : pool) (ids : list nat) (results : list (row vec))
  : option (result (list (row vec))) :=
  match ids with
  | [] => Some (Ok results)
  | i :: ids' =>
      match future_result p i with
      | Some (Ok rows) => gather p ids' (results ++ rows)
      | Some (Raise e) => Some (Raise e)
      | None => None
      end
  end.

Definition pool_done (p : pool) : bool :=
  match queue p, running p with
  | [], [] => true
  | _, _ => false
  end.

(** [embed_pmc_articles] under the scheduling [sched] of its worker
    threads.  [None]: [sched] is not a scheduling of this pool that runs
    every work item to its end. *)
Definition embed_pmc_articles (articles : list article) (num_workers : Z)
    (sched : list choice) (w : world)
  : option (result (list (row vec)) * world) :=
  if (num_workers <=? 0)%Z
  then Some (Raise (ValueError "max_workers must be greater than 0"), w)
  else
    match run_pool (Z.to_nat num_workers) sched (submit_all articles w) with
    | Some p =>
        if pool_done p
        then r ← gather p (seq 0 (length articles)) []; Some (r, pool_world p)
        else None
    | None => None
    end.

(** The pipeline with one thing done after the other, in the order of
    the input. *)
Fixpoint embed_in_order (articles : list article) (results : list (row vec))
  : M (list (row vec)) :=
  match articles with
  | [] => ret results
  | a :: articles' =>
      let* rows := _split_embed a in
      embed_in_order articles' (results ++ rows)
  end.
End Pipeline.

(** ** The query engine *)

(** The two metrics of [sklearn.metrics.pairwise] between a chunk embedding
    and the query embedding: [euclidean_distances(..., squared=True)] and
    [cosine_distances]. *)
Class Metrics (vec A : Type) := {
  sq_euclidean : vec -> vec -> A;
  cosine : vec -> vec -> A
}.

(** A numpy array made of a column of embeddings: a matrix of numbers with
    one row per vector (no row at all for the empty column), or a flat
    array of [n] objects, each of them [None]. *)
Inductive ndarray (vec : Type) : Type :=
  | Matrix (X : list vec)
  | Objects (n : nat).
Arguments Matrix {vec} X.
Arguments Objects {vec} n.

(** The vectors of a column, when every entry is one. *)
Fixpoint as_matrix {vec} (embeddings : list (option vec)) : option (list vec) :=
  match embeddings with
  | [] => Some []
  | Some v :: es => (fun vs => v :: vs) <$> as_matrix es
  | None :: _ => None
  end.

Definition missing {vec} (e : option vec) : bool :=
  match e with None => true | Some _ => false end.

(** numpy's refusal of a list without a common shape (the message
    shortened). *)
Definition inhomogeneous_shape : exn :=
  ValueError "setting an array element with a sequence".

(** [np.array(embeddings)].  The vectors of a column are of one length, as
    one model gives them.  A column that holds vectors and [None] has no
    common shape and is refused (numpy 1.24 and later; the message is
    shortened). *)
Definition np_array {vec} (embeddings : list (option vec))
  : result (ndarray vec) :=
  match as_matrix embeddings with
  | Some X => Ok (Matrix X)
  | None =>
      if forallb missing embeddings
      then Ok (Objects (length embeddings))
      else Raise inhomogeneous_shape
  end.

(** One distance per row of [embeddings], to the single row [query]: the
    pairwise functions check their arguments and refuse an array that is
    not a matrix of numbers with at least one row, and a query that is
    [None]. *)
Definition pairwise_distances {vec A} (metric : vec -> vec -> A)
    (embeddings : ndarray vec) (query : option vec) : result (list A) :=
  match embeddings, query with
  | Matrix (x :: X), Some q => Ok (map (fun x => metric x q) (x :: X))
  | _, _ => Raise (ValueError "array is not a matrix of numbers")
  end.

(** [df.groupby("pmcid", sort=False)]: the keys in the order they first
    appear, each with its rows in their order in the table.  The code
    reads the [embedding] column of a group and nothing else, so the
    groups are given by their rows, without the labels. *)
Fixpoint unique (keys : list string) : list string :=
  match keys with
  | [] => []
  | k :: ks => k :: filter (fun k' => k' ≠ k) (unique ks)
  end.

Definition groupby {vec} (df : list (row vec)) : list (string * list (row vec)) :=
  map (fun k => (k, filter (fun r => pmcid r = k) df)) (unique (map pmcid df)).

(** The unpacking [distances, ranks = zip] of the starred [results]. *)
Definition unzip_results {A} (results : list (list A * list nat))
  : result (list (list A) * list (list nat)) :=
  match results with
  | [] => Raise (ValueError "not enough values to unpack (expected 2, got 0)")
  | _ => Ok (map fst results, map snd results)
  end.

(** The copy of the four meta-data columns, which keeps the index of the
    input table, with the two new columns set from arrays: the values go
    to the rows by position, whatever the labels, and an array of another
    length than the table is refused. *)
Fixpoint set_columns {L vec A} (df : dataframe L vec)
    (distances : list A) (ranks : list nat) : list (ranked_row L A) :=
  match df, distances, ranks with
  | (l, r) :: df', d :: ds, k :: ks =>
      RankedRow l (pmcid r) (content r) (start_char r) (end_char r) d k
      :: set_columns df' ds ks
  | _, _, _ => []
  end.

Definition ranks_df {L vec A} (df : dataframe L vec)
    (distances : list (list A)) (ranks : list (list nat))
  : result (list (ranked_row L A)) :=
  let ds := concat distances in
  let ks := concat ranks in
  if decide (length ds = length df ∧ length ks = length df)
  then Ok (set_columns df ds ks)
  else Raise (ValueError "Length of values does not match length of index").

(** [ranks_df.sort_values("distance")]: ascending in [distance].  pandas
    does not promise an order among rows of equal distance; the model
    keeps them in their order in the table, and the properties below use
    only that the result is an ascending rearrangement of the rows. *)
Definition sort_values {L} `{PyOrd A} (rows : list (ranked_row L A))
  : list (ranked_row L A) :=
  sorted (fun r1 r2 => py_lt (distance r1) (distance r2)) rows.

(** A list comprehension over calls that may raise. *)
Fixpoint for_each {X Y} (f : X -> result Y) (xs : list X) : result (list Y) :=
  match xs with
  | [] => Ok []
  | x :: xs' => y ← f x; ys ← for_each f xs'; Ok (y :: ys)
  end.

(** *** [embed.py] *)
Module Embed.
Section Embed.
Context {L vec A : Type} `{PyOrd A} `{Metrics vec A}.
Variables (cfg : config) (c : client vec).

Definition query_embeddings (embeddings : list (option vec))
    (query_embedding : option vec) : result (list A * list nat) :=
  embeddings ← np_array embeddings;
  distances ← pairwise_distances sq_euclidean embeddings query_embedding;
  ranks ← _rank_numbers distances;
  Ok (distances, ranks).

Definition get_chunk_query_distance (embeddings_df : dataframe L vec)
    (query model : string) : M (list (ranked_row L A)) :=
  let* query_embedding := get_openai_embedding cfg c query model in
  let* results :=
    lift (for_each
            (fun g => query_embeddings (map embedding g.2) query_embedding)
            (groupby embeddings_df.*2)) in
  let* (distances, ranks) := lift (unzip_results results) in
  let* ranks_df := lift (ranks_df embeddings_df distances ranks) in
  ret (sort_values ranks_df).
End Embed.
End Embed.

(** *** [query.py] *)
Module Query.
Section Query.
Context {L vec A : Type} `{PyOrd A} `{Metrics vec A}.
(** [get_openai_embedding(query)] is called without a client and builds
    its own; [c] is the provider that client talks to. *)
Variables (cfg : config) (c : client vec).

(** The [if]/[elif] on [distance_metric]; [None]: no branch was taken and
    the name [distances] was never bound. *)
Definition metric_distances (distance_metric : string)
    (embeddings : ndarray vec) (query_embedding : option vec)
  : option (result (list A)) :=
  if String.eqb distance_metric "euclidean"
  then Some (pairwise_distances sq_euclidean embeddings query_embedding)
  else if String.eqb distance_metric "cosine"
  then Some (pairwise_distances cosine embeddings query_embedding)
  else None.

(** The column is made an array first; the embedding of the query is asked
    for after that, and before [distance_metric] is looked at. *)
Definition query_embeddings (embeddings : list (option vec))
    (query distance_metric : string) : M (list A * list nat) :=
  let* embeddings := lift (np_array embeddings) in
  let* query_embedding := get_openai_embedding cfg c query default_model in
  match metric_distances distance_metric embeddings query_embedding with
  | Some r =>
      let* distances := lift r in
      let* ranks := lift (_rank_numbers distances) in
      ret (distances, ranks)
  | None => raise (UnboundLocalError "distances")
  end.

(** The work items of the pool, each run to its end in the order of
    submission (what the one worker of the default [num_workers=1]
    does; more workers interleave the embedding calls of the items but
    make the same calls); an exception stays in the future of its work
    item, and the items after it are run all the same. *)
Fixpoint run_futures {B} (tasks : list (M B)) (w : world)
  : list (result B) * world :=
  match tasks with
  | [] => ([], w)
  | t :: tasks' =>
      let '(r, w') := t w in
      let '(rs, w'') := run_futures tasks' w' in
      (r :: rs, w'')
  end.

Definition get_chunk_query_distance (embeddings_df : dataframe L vec)
    (query : string) (num_workers : Z) : M (list (ranked_row L A)) :=
  if (num_workers <=? 0)%Z
  then raise (ValueError "max_workers must be greater than 0")
  else
    let* futures := (fun w =>
      let '(rs, w') :=
        run_futures
          (map (fun g => query_embeddings (map embedding g.2) query "euclidean")
               (groupby embeddings_df.*2)) w in
      (Ok rs, w')) in
    let* results := lift (for_each (fun future => future) futures) in
    let* (distances, ranks) := lift (unzip_results results) in
    lift (ranks_df embeddings_df distances ranks).
End Query.
End Query.

(** ** Integer vectors, for examples *)

(** Squared Euclidean distance between integer vectors.  A cosine distance
    has no integer values; the examples never take that branch, and the
    field is filled with the same function. *)

#[export] Instance Z_Metrics : Metrics (list Z) Z := {|
  sq_euclidean x y :=
    foldr Z.add 0%Z (zip_with (fun a b => (a - b) * (a - b))%Z x y);
  cosine x y :=
    foldr Z.add 0%Z (zip_with (fun a b => (a - b) * (a - b))%Z x y)
|}.

(** * Properties *)

(** ** Sorting *)

Section SortedFacts.
Context {A : Type} (lt : A -> A -> bool).

Lemma insert_sorted_perm x l : insert_sorted lt x l ≡ₚ x :: l.
Proof.
  induction l as [|y l IH]; simpl; [done|].
  destruct (lt y x); [|done].
  rewrite IH. apply Permutation_swap.
Qed.

Lemma sorted_perm l : sorted lt l ≡ₚ l.
Proof.
  induction l as [|x l IH]; simpl; [done|].
  rewrite insert_sorted_perm. by constructor.
Qed.

Lemma sorted_length l : length (sorted lt l) = length l.
Proof. apply Permutation_length, sorted_perm. Qed.

(** [x] does not come after [y]. *)
Definition not_after (x y : A) : Prop := lt y x = false.

Section Weak.
Hypothesis lt_asym : forall x y, lt x y = true -> lt y x = false.
Hypothesis not_after_trans :
  forall x y z, not_after x y -> not_after y z -> not_after x z.

Lemma insert_sorted_sorted x l :
  StronglySorted not_after l -> StronglySorted not_after (insert_sorted lt x l).
Proof.
  induction 1 as [|y l Hl IH Hy]; simpl.
  - repeat constructor.
  - destruct (lt y x) eqn:Hyx.
    + constructor; [done|].
      rewrite insert_sorted_perm. constructor; [|done].
      by apply lt_asym.
    + constructor; [by constructor|].
      constructor; [done|].
      eapply Forall_impl; [exact Hy|].
      intros z Hz. by apply not_after_trans with y.
Qed.

Lemma sorted_sorted l : StronglySorted not_after (sorted lt l).
Proof.
  induction l as [|x l IH]; simpl; [constructor|].
  by apply insert_sorted_sorted.
Qed.
End Weak.

Hypothesis lt_irrefl : forall x, lt x x = false.
Hypothesis lt_trans : forall x y z, lt x y = true -> lt y z = true -> lt x z = true.
Hypothesis lt_total : forall x y, lt x y = false -> lt y x = false -> x = y.

Lemma strict_lt_asym x y : lt x y = true -> lt y x = false.
Proof.
  intros Hxy. destruct (lt y x) eqn:Hyx; [|done].
  rewrite <- (lt_irrefl x). symmetry. by apply lt_trans with y.
Qed.

Lemma strict_not_after_trans x y z :
  not_after x y -> not_after y z -> not_after x z.
Proof.
  unfold not_after. intros Hyx Hzy.
  destruct (lt z x) eqn:Hzx; [|done].
  destruct (lt x y) eqn:Hxy.
  - by rewrite (lt_trans z x y) in Hzy.
  - rewrite (lt_total x y Hxy Hyx) in Hzx. congruence.
Qed.

Lemma sorted_sorted_strict l : StronglySorted not_after (sorted lt l).
Proof. apply sorted_sorted; [apply strict_lt_asym|apply strict_not_after_trans]. Qed.

(** In a sorted list without repetition, position and order agree. *)
Lemma sorted_lookup_lt l i j x y :
  StronglySorted not_after l -> NoDup l ->
  l !! i = Some x -> l !! j = Some y ->
  (i < j <-> lt x y = true).
Proof.
  intros Hs Hnd Hi Hj.
  assert (Hmono : forall a b u v, l !! a = Some u -> l !! b = Some v ->
            a < b -> lt u v = true).
  { clear i j x y Hi Hj. induction Hs as [|z l Hl IH Hz]; intros a b u v Ha Hb Hab.
    - done.
    - apply NoDup_cons in Hnd as [Hnz Hnd].
      destruct b as [|b]; [lia|]. simpl in Hb.
      destruct a as [|a]; simpl in Ha.
      + injection Ha as ->.
        assert (Hv : v ∈ l) by (by eapply list_elem_of_lookup_2).
        rewrite Forall_forall in Hz. specialize (Hz v Hv).
        unfold not_after in Hz.
        destruct (lt u v) eqn:Huv; [done|].
        rewrite (lt_total u v Huv Hz) in Hnz. done.
      + apply (IH Hnd a b); [done..|lia]. }
  split; [by apply Hmono|].
  intros Hxy.
  destruct (Nat.lt_trichotomy i j) as [?|[->|Hji]]; [done|..].
  - rewrite Hi in Hj. injection Hj as ->. by rewrite lt_irrefl in Hxy.
  - pose proof (Hmono j i y x Hj Hi Hji) as Hyx.
    by rewrite (strict_lt_asym y x Hyx) in Hxy.
Qed.
End SortedFacts.

(** ** Ranking *)

Lemma enumerate_from_lookup {A} (l : list A) n i :
  enumerate_from n l !! i = (fun x => (n + i, x)) <$> l !! i.
Proof.
  revert n i. induction l as [|x l IH]; intros n [|i]; simpl; try done.
  - by rewrite Nat.add_0_r.
  - rewrite IH. by replace (S n + i) with (n + S i) by lia.
Qed.

Lemma enumerate_from_length {A} (l : list A) n :
  length (enumerate_from n l) = length l.
Proof. revert n. induction l; intros; simpl; auto. Qed.

(** The tuples [(num, i)] that [_rank_numbers] sorts. *)
Definition tuples {A} (numbers : list A) : list (A * nat) :=
  map (fun '(i, num) => (num, i)) (enumerate numbers).

Lemma tuples_lookup {A} (numbers : list A) i :
  tuples numbers !! i = (fun x => (x, i)) <$> numbers !! i.
Proof.
  unfold tuples, enumerate. rewrite list_lookup_fmap, enumerate_from_lookup.
  by destruct (numbers !! i).
Qed.

Lemma tuples_length {A} (numbers : list A) :
  length (tuples numbers) = length numbers.
Proof. unfold tuples, enumerate. by rewrite length_map, enumerate_from_length. Qed.

Lemma tuples_elem {A} (numbers : list A) x i :
  (x, i) ∈ tuples numbers <-> numbers !! i = Some x.
Proof.
  rewrite list_elem_of_lookup. split.
  - intros [j Hj]. rewrite tuples_lookup in Hj.
    destruct (numbers !! j) eqn:E; simpl in Hj; [|done].
    by injection Hj as -> ->.
  - intros Hi. exists i. by rewrite tuples_lookup, Hi.
Qed.

Lemma tuples_indices {A} (numbers : list A) :
  (tuples numbers).*2 = seq 0 (length numbers).
Proof.
  apply list_eq. intros i. rewrite list_lookup_fmap, tuples_lookup.
  destruct (numbers !! i) eqn:E; simpl.
  - symmetry. apply lookup_seq. split; [done|]. by eapply lookup_lt_Some.
  - symmetry. apply lookup_seq_ge. by apply lookup_ge_None.
Qed.

Lemma tuples_NoDup {A} (numbers : list A) : NoDup (tuples numbers).
Proof.
  apply (NoDup_fmap_1 snd). rewrite tuples_indices. apply NoDup_seq.
Qed.

Lemma assign_ranks_spec {A} (s : list (A * nat)) k ranks0 :
  (forall x i, (x, i) ∈ s -> i < length ranks0) ->
  NoDup (s.*2) ->
  exists ranks,
    assign_ranks (enumerate_from k s) ranks0 = Ok ranks /\
    length ranks = length ranks0 /\
    (forall r x i, s !! r = Some (x, i) -> ranks !! i = Some (k + r)) /\
    (forall j, j ∉ s.*2 -> ranks !! j = ranks0 !! j).
Proof.
  revert k ranks0. induction s as [|[x i] s IH]; intros k ranks0 Hlt Hnd.
  - exists ranks0. by repeat split.
  - apply NoDup_cons in Hnd as [Hi Hnd]. simpl.
    unfold list_setitem.
    rewrite decide_True by (apply (Hlt x); left).
    destruct (IH (S k) (<[i:=k]> ranks0)) as (ranks & Hrun & Hlen & Hpos & Hrest).
    { intros y j Hj. rewrite length_insert. apply (Hlt y). by right. }
    { done. }
    exists ranks. simpl. split; [done|].
    rewrite length_insert in Hlen. split; [done|]. split.
    + intros [|r] y j Hr; simpl in Hr.
      * injection Hr as <- <-. rewrite (Hrest i Hi), Nat.add_0_r.
        apply list_lookup_insert_eq. apply (Hlt x). left.
      * rewrite (Hpos r y j Hr). f_equal. lia.
    + intros j Hj. apply not_elem_of_cons in Hj as [Hji Hj].
      rewrite (Hrest j Hj). by apply list_lookup_insert_ne.
Qed.

(** What [_rank_numbers] computes: it never raises, and the rank of a
    position is where its tuple stands in the sorted list. *)
Lemma rank_numbers_spec `{PyOrd A} (numbers : list A) :
  exists ranks,
    _rank_numbers numbers = Ok ranks /\
    length ranks = length numbers /\
    (forall r x i, sorted tuple_lt (tuples numbers) !! r = Some (x, i) ->
                   ranks !! i = Some r).
Proof.
  set (s := sorted tuple_lt (tuples numbers)).
  assert (Hperm : s ≡ₚ tuples numbers) by apply sorted_perm.
  destruct (assign_ranks_spec s 0 (replicate (length numbers) 0))
    as (ranks & Hrun & Hlen & Hpos & _).
  - intros x i Hi. rewrite length_replicate.
    rewrite Hperm in Hi. apply tuples_elem in Hi. by eapply lookup_lt_Some.
  - rewrite Hperm, tuples_indices. apply NoDup_seq.
  - exists ranks. rewrite length_replicate in Hlen.
    split; [exact Hrun|]. split; [done|]. exact Hpos.
Qed.

Lemma rank_numbers_length `{PyOrd A} (numbers : list A) ranks :
  _rank_numbers numbers = Ok ranks -> length ranks = length numbers.
Proof.
  destruct (rank_numbers_spec numbers) as (ranks' & Hrun & Hlen & _).
  rewrite Hrun. by intros [= <-].
Qed.

(** Every position has a place in the sorted list, and its rank is that
    place. *)
Lemma rank_numbers_place `{PyOrd A} (numbers : list A) ranks a x :
  _rank_numbers numbers = Ok ranks ->
  numbers !! a = Some x ->
  exists r, sorted tuple_lt (tuples numbers) !! r = Some (x, a) /\
            ranks !! a = Some r.
Proof.
  intros Hrun Ha.
  destruct (rank_numbers_spec numbers) as (ranks' & Hrun' & _ & Hpos).
  rewrite Hrun in Hrun'. injection Hrun' as <-.
  assert (Hin : (x, a) ∈ sorted tuple_lt (tuples numbers)).
  { rewrite sorted_perm. by apply tuples_elem. }
  apply list_elem_of_lookup in Hin as [r Hr].
  exists r. split; [done|]. by apply (Hpos r x a).
Qed.

Section TupleOrder.
Context `{TotalOrd A}.

Lemma py_eq_refl (x : A) : py_eq x x = true.
Proof. by apply py_eq_spec. Qed.

Lemma tuple_lt_spec (x y : A) (a b : nat) :
  tuple_lt (x, a) (y, b) = true <->
  py_lt x y = true \/ (x = y /\ a < b).
Proof.
  unfold tuple_lt. simpl. destruct (py_eq x y) eqn:E.
  - apply py_eq_spec in E as ->. rewrite Nat.ltb_lt, py_lt_irrefl.
    split; [auto|]. by intros [?|[_ ?]].
  - split; [auto|]. intros [?|[-> _]]; [done|].
    by rewrite py_eq_refl in E.
Qed.

Lemma tuple_lt_irrefl (p : A * nat) : tuple_lt p p = false.
Proof.
  destruct p as [x a]. apply not_true_is_false.
  rewrite tuple_lt_spec, py_lt_irrefl. intros [?|[_ ?]]; [done|lia].
Qed.

Lemma tuple_lt_trans (p q r : A * nat) :
  tuple_lt p q = true -> tuple_lt q r = true -> tuple_lt p r = true.
Proof.
  destruct p as [x a], q as [y b], r as [z c]. rewrite !tuple_lt_spec.
  intros [Hxy|[-> Hab]] [Hyz|[-> Hbc]].
  - left. by apply py_lt_trans with y.
  - by left.
  - by left.
  - right. split; [done|lia].
Qed.

Lemma tuple_lt_total (p q : A * nat) :
  tuple_lt p q = false -> tuple_lt q p = false -> p = q.
Proof.
  destruct p as [x a], q as [y b]. intros Hpq Hqp.
  apply not_true_iff_false in Hpq, Hqp.
  rewrite tuple_lt_spec in Hpq, Hqp.
  assert (x = y) as ->.
  { apply py_lt_total; apply not_true_is_false; tauto. }
  f_equal. destruct (Nat.lt_trichotomy a b) as [?|[?|?]]; [|done|]; tauto.
Qed.
End TupleOrder.

#[export] Instance Z_TotalOrd : TotalOrd Z.
Proof.
  split; simpl.
  - intros x y. apply Z.eqb_eq.
  - intros x. apply Z.ltb_irrefl.
  - intros x y z. rewrite !Z.ltb_lt. lia.
  - intros x y. rewrite !Z.ltb_ge. lia.
Qed.

(** C1. Within a group, ranking is the total order of the distances with
    ties broken by original index: [_rank_numbers] returns ranks such that
    rank(a) < rank(b) exactly when distance(a) < distance(b), or the
    distances are equal and a comes before b; the position ranked 0 has a
    distance that no other distance is below. *)
Theorem rank_numbers_total_order `{TotalOrd A} (numbers : list A) :
  exists ranks,
    _rank_numbers numbers = Ok ranks /\
    length ranks = length numbers /\
    (forall a b da db ra rb,
        numbers !! a = Some da -> numbers !! b = Some db ->
        ranks !! a = Some ra -> ranks !! b = Some rb ->
        (ra < rb <-> py_lt da db = true \/ (da = db /\ a < b))) /\
    (forall a da,
        numbers !! a = Some da -> ranks !! a = Some 0 ->
        forall b db, numbers !! b = Some db -> py_lt db da = false).
Proof.
  destruct (rank_numbers_spec numbers) as (ranks & Hrun & Hlen & _).
  exists ranks. split; [done|]. split; [done|].
  assert (Hiff : forall a b da db ra rb,
            numbers !! a = Some da -> numbers !! b = Some db ->
            ranks !! a = Some ra -> ranks !! b = Some rb ->
            (ra < rb <-> py_lt da db = true \/ (da = db /\ a < b))).
  { intros a b da db ra rb Ha Hb Hra Hrb.
    destruct (rank_numbers_place numbers ranks a da Hrun Ha) as (ra' & Hsa & Hra').
    destruct (rank_numbers_place numbers ranks b db Hrun Hb) as (rb' & Hsb & Hrb').
    assert (ra' = ra) as -> by congruence.
    assert (rb' = rb) as -> by congruence.
    rewrite <- tuple_lt_spec.
    apply (sorted_lookup_lt tuple_lt tuple_lt_irrefl tuple_lt_trans tuple_lt_total
             (sorted tuple_lt (tuples numbers))); [| |done|done].
    - apply sorted_sorted_strict;
        [apply tuple_lt_irrefl|apply tuple_lt_trans|apply tuple_lt_total].
    - rewrite sorted_perm. apply tuples_NoDup. }
  split; [exact Hiff|].
  intros a da Ha Hra b db Hb.
  destruct (rank_numbers_place numbers ranks b db Hrun Hb) as (rb & _ & Hrb).
  destruct (py_lt db da) eqn:Hlt; [|done].
  assert (rb < 0); [|lia].
  apply (Hiff b a db da rb 0 Hb Ha Hrb Hra). by left.
Qed.

Lemma rank_numbers_total_order_witness :
  exists ranks,
    _rank_numbers [9; 1; 5; 1]%Z = Ok ranks /\
    length ranks = 4 /\
    (forall a b da db ra rb,
        [9; 1; 5; 1]%Z !! a = Some da -> [9; 1; 5; 1]%Z !! b = Some db ->
        ranks !! a = Some ra -> ranks !! b = Some rb ->
        (ra < rb <-> (da <? db)%Z = true \/ (da = db /\ a < b))) /\
    (forall a da,
        [9; 1; 5; 1]%Z !! a = Some da -> ranks !! a = Some 0 ->
        forall b db, [9; 1; 5; 1]%Z !! b = Some db -> (db <? da)%Z = false).
Proof. exact (rank_numbers_total_order (H0 := Z_TotalOrd) [9; 1; 5; 1]%Z). Defined.

(** C10. For a list of n numbers [_rank_numbers] returns n ranks that are a
    permutation of 0, 1, ..., n-1: every rank below n is the rank of one
    position and of no other. *)
Theorem rank_numbers_permutation `{PyOrd A} (numbers : list A) :
  exists ranks,
    _rank_numbers numbers = Ok ranks /\
    length ranks = length numbers /\
    ranks ≡ₚ seq 0 (length numbers) /\
    (forall r, r < length numbers ->
       exists i, ranks !! i = Some r /\
                 forall j, ranks !! j = Some r -> j = i).
Proof.
  destruct (rank_numbers_spec numbers) as (ranks & Hrun & Hlen & Hpos).
  exists ranks. split; [done|]. split; [done|].
  set (s := sorted tuple_lt (tuples numbers)) in *.
  set (f := fun i => default 0 (ranks !! i)).
  assert (Hidx : s.*2 ≡ₚ seq 0 (length numbers)).
  { unfold s. by rewrite sorted_perm, tuples_indices. }
  assert (Hs : f <$> s.*2 = seq 0 (length numbers)).
  { apply list_eq. intros r. rewrite !list_lookup_fmap.
    destruct (s !! r) as [[x i]|] eqn:E; simpl.
    - unfold f. rewrite (Hpos r x i E). simpl. symmetry.
      apply lookup_seq. split; [done|].
      apply lookup_lt_Some in E. unfold s in E.
      by rewrite sorted_length, tuples_length in E.
    - symmetry. apply lookup_seq_ge.
      apply lookup_ge_None in E. unfold s in E.
      by rewrite sorted_length, tuples_length in E. }
  assert (Hr : f <$> seq 0 (length numbers) = ranks).
  { apply list_eq. intros i. rewrite list_lookup_fmap.
    destruct (ranks !! i) as [r|] eqn:E.
    - rewrite (proj2 (lookup_seq 0 (length numbers) i i)); simpl.
      + unfold f. by rewrite E.
      + split; [done|]. rewrite <- Hlen. by eapply lookup_lt_Some.
    - rewrite lookup_seq_ge; [done|].
      rewrite <- Hlen. by apply lookup_ge_None. }
  assert (Hperm : ranks ≡ₚ seq 0 (length numbers)).
  { assert (Hf : f <$> seq 0 (length numbers) ≡ₚ f <$> s.*2) by (by rewrite Hidx).
    by rewrite Hr, Hs in Hf. }
  split; [done|].
  intros r Hlt.
  assert (Hin : r ∈ ranks).
  { rewrite Hperm. apply elem_of_seq. lia. }
  apply list_elem_of_lookup in Hin as [i Hi].
  exists i. split; [done|]. intros j Hj.
  assert (Hnd : NoDup ranks) by (rewrite Hperm; apply NoDup_seq).
  by apply (NoDup_lookup ranks j i r).
Qed.

(** ** The retry policy *)

(** [func] raises an exception of the retried classes [k] times in a row
    from [w], then returns [v]; [w'] is the world after these [k + 1]
    invocations. *)
Inductive fails_then_succeeds {A} (func : M A)
  : nat -> world -> A -> world -> Prop :=
  | fts_succeeds w v w' :
      func w = (Ok v, w') -> fails_then_succeeds func 0 w v w'
  | fts_fails k w e w1 v w' :
      func w = (Raise e, w1) -> retryable e = true ->
      fails_then_succeeds func k w1 v w' ->
      fails_then_succeeds func (S k) w v w'.

Lemma retrying_fails_then_succeeds {A} (func : M A) k w v w' more :
  fails_then_succeeds func k w v w' -> k <= more ->
  retrying more func w = (Ok v, w').
Proof.
  intros Hfts. revert more.
  induction Hfts as [w v w' Hok|k w e w1 v w' Hfail Hre _ IH]; intros more Hle.
  - destruct more; simpl; by rewrite Hok.
  - destruct more as [|more]; [lia|]. simpl. rewrite Hfail, Hre.
    apply IH. lia.
Qed.

Lemma reexecutor_fails_then_succeeds {A} cfg (func : M A) k w v w' :
  fails_then_succeeds func k w v w' ->
  (Z.of_nat k < retry_attempts cfg)%Z ->
  reexecutor cfg func w = (Ok v, w').
Proof.
  intros Hfts Hk. unfold reexecutor.
  destruct (1 <? retry_attempts cfg)%Z eqn:HN.
  - apply retrying_fails_then_succeeds with k; [done|].
    apply Z.ltb_lt in HN. lia.
  - apply Z.ltb_ge in HN. assert (k = 0) as -> by lia.
    by inversion Hfts.
Qed.

(** The world after [n] more attempts of the same request. *)
Definition after_attempts (w : world) (input model : string) (n : nat) : world :=
  World (requests w ++ replicate n (input, model)) (client_calls w) (warnings w).

Lemma after_attempts_S w input model n :
  after_attempts (after_attempts w input model 1) input model n
  = after_attempts w input model (S n).
Proof. unfold after_attempts. simpl. by rewrite <- app_assoc. Qed.

Lemma embeddings_create_fails_then_succeeds {vec} (c : client vec)
    input model k w v :
  (forall i, i < k -> exists e,
      respond c (requests (after_attempts w input model i)) input model = Raise e
      /\ retryable e = true) ->
  respond c (requests (after_attempts w input model k)) input model = Ok v ->
  fails_then_succeeds (embeddings_create c input model) k w v
    (after_attempts w input model (S k)).
Proof.
  revert w. induction k as [|k IH]; intros w Hfail Hok.
  - apply fts_succeeds. unfold embeddings_create, after_attempts in *.
    simpl in *. rewrite app_nil_r in Hok. by rewrite Hok.
  - destruct (Hfail 0) as (e & He & Hre); [lia|].
    apply fts_fails with e (after_attempts w input model 1); [|done|].
    + unfold embeddings_create, after_attempts in *. simpl in *.
      rewrite app_nil_r in He. by rewrite He.
    + rewrite <- (after_attempts_S w input model (S k)). apply IH.
      * intros i Hi. rewrite after_attempts_S. apply Hfail. lia.
      * by rewrite after_attempts_S.
Qed.

(** C5. A remote call that fails with an exception of the retried classes
    exactly [k] times, [k] below the number of attempts, and then succeeds,
    is invoked [k + 1] times by [reexecutor], which returns the value of
    the successful call. *)
Theorem reexecutor_retry_bound {vec} cfg (c : client vec) input model k w v :
  (Z.of_nat k < retry_attempts cfg)%Z ->
  (forall i, i < k -> exists e,
      respond c (requests w ++ replicate i (input, model)) input model = Raise e
      /\ retryable e = true) ->
  respond c (requests w ++ replicate k (input, model)) input model = Ok v ->
  reexecutor cfg (embeddings_create c input model) w
  = (Ok v, World (requests w ++ replicate (k + 1) (input, model))
             (client_calls w) (warnings w)).
Proof.
  intros Hk Hfail Hok. rewrite Nat.add_1_r.
  apply reexecutor_fails_then_succeeds with k; [|done].
  by apply embeddings_create_fails_then_succeeds.
Qed.

(** A provider that refuses its first two requests for being over the rate
    limit and answers from the third on. *)
Definition busy_twice : client (list Z) :=
  Client _ (fun asked _ _ =>
    if decide (length asked < 2) then Raise RateLimitError else Ok [1; 2]%Z).

Lemma reexecutor_retry_bound_witness :
  reexecutor default_config (embeddings_create busy_twice "text" default_model)
    empty_world
  = (Ok [1; 2]%Z,
     World (replicate 3 ("text", default_model)) [] []).
Proof.
  apply (reexecutor_retry_bound default_config busy_twice "text" default_model
           2 empty_world [1; 2]%Z).
  - simpl. lia.
  - intros i Hi. exists RateLimitError. split; [|done].
    simpl. rewrite length_replicate. by rewrite decide_True by lia.
  - reflexivity.
Defined.

(** When every attempt fails with an exception of the retried classes, the
    policy gives up after [retry_attempts] attempts with a [RetryError]
    around the last one. *)
Lemma retrying_exhausted {A} (func : M A) more w e :
  (forall w1, exists w2, func w1 = (Raise e, w2)) -> retryable e = true ->
  exists w', retrying more func w = (Raise (RetryError e), w').
Proof.
  intros Hfail Hre. revert w. induction more as [|more IH]; intros w; simpl;
    destruct (Hfail w) as [w2 ->]; rewrite Hre; eauto.
Qed.

(** ** The embedding client *)

(** C6. When the retried provider call ends in an exception [e], then with
    [PUBLANG_WARN_ON_FAILURE] unset or empty (unset is the default)
    [get_openai_embedding] raises [e]; with the variable set it emits a
    warning for [e] and returns [None] without raising. *)
Theorem get_openai_embedding_failure {vec} attempts (c : client vec)
    input model w e w' :
  reexecutor (Config attempts None) (embeddings_create c input model)
    (World (requests w) (client_calls w ++ [input]) (warnings w))
  = (Raise e, w') ->
  (forall flag, truthy flag = false ->
     get_openai_embedding (Config attempts flag) c input model w
     = (Raise e, w')) /\
  (forall flag, truthy flag = true ->
     get_openai_embedding (Config attempts flag) c input model w
     = (Ok None, World (requests w') (client_calls w') (warnings w' ++ [e]))) /\
  truthy (warn_on_failure default_config) = false.
Proof.
  intros Hre. unfold reexecutor in Hre. simpl in Hre.
  repeat split; intros flag Hflag;
    unfold get_openai_embedding, bind, try_except, note_client_call, reexecutor;
    simpl; rewrite Hre, Hflag; reflexivity.
Qed.

(** A provider that is always over its rate limit. *)
Definition always_busy : client (list Z) :=
  Client _ (fun _ _ _ => Raise RateLimitError).

Lemma get_openai_embedding_failure_witness :
  get_openai_embedding (Config 3 None) always_busy "text" default_model
    empty_world
  = (Raise (RetryError RateLimitError),
     World (replicate 3 ("text", default_model)) ["text"] []) /\
  get_openai_embedding (Config 3 (Some "1")) always_busy "text" default_model
    empty_world
  = (Ok None,
     World (replicate 3 ("text", default_model)) ["text"]
       [RetryError RateLimitError]).
Proof.
  destruct (get_openai_embedding_failure 3 always_busy "text"
              default_model empty_world (RetryError RateLimitError)
              (World (replicate 3 ("text", default_model)) ["text"] []))
    as (Hhard & Hsoft & _).
  - reflexivity.
  - split; [apply (Hhard None)|apply (Hsoft (Some "1"))]; reflexivity.
Defined.

(** ** The embedding pipeline *)

(** The provider is stateless: its answer to a request does not depend on
    what it was asked before. *)
Definition stateless {vec} (c : client vec) : Prop :=
  forall asked input model, respond c asked input model = respond c [] input model.

(** What a computation returns from the empty world. *)
Definition value {A} (m : M A) : result A := (m empty_world).1.

(** The columns of a row other than its embedding, and the same for a
    chunk of the article [art_id]. *)
Definition meta {vec} (r : row vec) : string * string * Z * Z :=
  (pmcid r, content r, start_char r, end_char r).

Definition chunk_meta (art_id : string) (ch : chunk) : string * string * Z * Z :=
  (art_id, ch_content ch, ch_start ch, ch_end ch).

(** *** What every scheduling preserves *)

Section PoolInvariant.
Context {vec : Type}.
Variable split_pmc_document : string -> Z -> Z -> list chunk.
Variables (cfg : config) (c : client vec).
Variables (model : string) (min_chars max_chars : Z).

Local Abbreviation pool_step :=
  (pool_step split_pmc_document cfg c model min_chars max_chars).
Local Abbreviation run_pool :=
  (run_pool split_pmc_document cfg c model min_chars max_chars).

(** A property of the threads at work on an article, kept by every step
    of a thread, and what it gives for the future the thread resolves. *)
Variable at_work : article -> @thread vec -> Prop.
Variable resolved : article -> result (list (row vec)) -> Prop.
Hypothesis at_work_start : forall i a,
  at_work a (start_thread split_pmc_document min_chars max_chars i a).
Hypothesis at_work_advance : forall a t w,
  at_work a t ->
  match advance_thread cfg c model t w with
  | (inl t', _) => th_future t' = th_future t /\ at_work a t'
  | (inr r, _) => resolved a r
  end.

(** Every future, resolved or not, belongs to one submitted article; the
    threads at work and the resolved futures have the two properties. *)
Definition pool_inv (articles : list article) (p : @pool vec) : Prop :=
  Forall (fun q => articles !! q.1 = Some q.2) (queue p) /\
  Forall (fun t => exists a, articles !! th_future t = Some a /\ at_work a t)
    (running p) /\
  Forall (fun f => exists a, articles !! f.1 = Some a /\ resolved a f.2)
    (futures p) /\
  (queue p).*1 ++ (th_future <$> running p) ++ (futures p).*1
    ≡ₚ seq 0 (length articles).

Lemma submit_all_inv articles w : pool_inv articles (submit_all articles w).
Proof.
  unfold submit_all, pool_inv, enumerate. simpl. repeat split; try by constructor.
  - apply Forall_lookup. intros i [j a] Hi.
    rewrite enumerate_from_lookup in Hi.
    destruct (articles !! i) eqn:E; simpl in *; [|done]. by injection Hi as <- <-.
  - rewrite app_nil_r.
    assert ((enumerate_from 0 articles).*1 = seq 0 (length articles)) as ->; [|done].
    apply list_eq. intros i. rewrite list_lookup_fmap, enumerate_from_lookup.
    destruct (articles !! i) eqn:E; simpl; symmetry.
    + apply lookup_seq. split; [done|]. by eapply lookup_lt_Some.
    + apply lookup_seq_ge. by apply lookup_ge_None.
Qed.

Lemma pool_step_inv articles workers ch p p' :
  pool_step workers ch p = Some p' -> pool_inv articles p -> pool_inv articles p'.
Proof.
  intros Hstep (Hq & Hr & Hf & Hids). destruct ch as [|k]; simpl in Hstep.
  - destruct (queue p) as [|[i a] q] eqn:Hqueue; [done|].
    case_decide; [|done]. injection Hstep as <-.
    apply Forall_cons in Hq as [Hia Hq].
    rewrite fmap_cons in Hids.
    repeat split; simpl.
    + done.
    + apply Forall_app. split; [done|]. constructor; [|constructor].
      exists a. split; [done|]. apply at_work_start.
    + done.
    + rewrite <- Hids, fmap_app. simpl. solve_Permutation.
  - destruct (running p !! k) as [t|] eqn:Hk; [|done].
    destruct (proj1 (Forall_lookup _ _) Hr k t Hk) as (a & Ha & Ht).
    pose proof (at_work_advance a t (pool_world p) Ht) as Hadv.
    destruct (advance_thread cfg c model t (pool_world p)) as [[t'|r] w'];
      injection Hstep as <-; repeat split; simpl.
    + done.
    + destruct Hadv as [Hid Ht']. apply Forall_insert; [done|].
      exists a. split; [by rewrite Hid|done].
    + done.
    + destruct Hadv as [Hid _].
      rewrite list_fmap_insert, Hid, list_insert_id; [done|].
      by rewrite list_lookup_fmap, Hk.
    + done.
    + by apply Forall_delete.
    + constructor; [|done]. by exists a.
    + rewrite <- Hids.
      rewrite (delete_Permutation (running p) k t Hk) at 2. simpl.
      solve_Permutation.
Qed.

Lemma run_pool_inv articles workers sched p p' :
  run_pool workers sched p = Some p' -> pool_inv articles p -> pool_inv articles p'.
Proof.
  revert p. induction sched as [|ch sched IH]; intros p Hrun Hinv; simpl in Hrun.
  - by injection Hrun as <-.
  - destruct (pool_step workers ch p) as [p1|] eqn:Hstep; [|done].
    eapply IH; [done|]. by eapply pool_step_inv.
Qed.

(** Once the pool is done, every article has its future. *)
Lemma future_result_done articles p i a :
  pool_inv articles p -> pool_done p = true -> articles !! i = Some a ->
  exists r, future_result p i = Some r /\ resolved a r.
Proof.
  intros (_ & _ & Hf & Hids) Hdone Hi.
  unfold pool_done in Hdone.
  destruct (queue p); [|done]. destruct (running p); [|done]. simpl in Hids.
  assert (Hin : i ∈ (futures p).*1).
  { rewrite Hids. apply elem_of_seq. apply lookup_lt_Some in Hi. lia. }
  apply list_elem_of_fmap in Hin as (f & Hif & Hin).
  unfold future_result.
  destruct (list_find_elem_of (fun f => f.1 = i) (futures p) f Hin (eq_sym Hif))
    as [[n [j r]] Hfind].
  rewrite Hfind. simpl. exists r. split; [done|].
  apply list_find_Some in Hfind as (Hn & Hj & _). simpl in Hj. subst j.
  rewrite Forall_lookup in Hf. destruct (Hf n (i, r) Hn) as (a' & Ha' & Hr').
  simpl in Ha', Hr'. congruence.
Qed.

Lemma run_pool_app workers sched1 sched2 p :
  run_pool workers (sched1 ++ sched2) p
  = run_pool workers sched1 p ≫= run_pool workers sched2.
Proof.
  revert p. induction sched1 as [|ch sched1 IH]; intros p; simpl; [done|].
  destruct (pool_step workers ch p); [apply IH|done].
Qed.

(** A thread left alone runs to its end. *)
Lemma thread_runs_out workers q fs todo : forall t w,
  th_todo t = todo ->
  exists sched fs' w',
    run_pool workers sched (Pool q [t] fs w) = Some (Pool q [] fs' w').
Proof.
  induction todo as [|ch todo IH]; intros t w Htodo.
  - exists [Advance 0]. eexists _, _. simpl.
    unfold advance_thread. by rewrite Htodo.
  - destruct (get_openai_embedding cfg c (ch_content ch) model w)
      as [[res|e] w1] eqn:Hget.
    + destruct (IH (Thread (th_future t) (th_pmcid t) todo
                      (th_done t ++ [Row (th_pmcid t) (ch_content ch)
                                       (ch_start ch) (ch_end ch) res])) w1 eq_refl)
        as (sched & fs' & w' & Hrun).
      exists (Advance 0 :: sched), fs', w'. simpl.
      unfold advance_thread. by rewrite Htodo, Hget.
    + exists [Advance 0]. eexists _, _. simpl.
      unfold advance_thread. by rewrite Htodo, Hget.
Qed.

(** With at least one worker, some scheduling runs the whole queue. *)
Lemma queue_runs_out workers q : forall fs w,
  0 < workers ->
  exists sched p',
    run_pool workers sched (Pool q [] fs w) = Some p' /\ pool_done p' = true.
Proof.
  induction q as [|[i a] q IH]; intros fs w Hw.
  - by exists [], (Pool [] [] fs w).
  - destruct (thread_runs_out workers q fs _ (start_thread split_pmc_document
                min_chars max_chars i a) w eq_refl) as (s1 & fs' & w' & Hrun1).
    destruct (IH fs' w' Hw) as (s2 & p' & Hrun2 & Hdone).
    exists (Start :: s1 ++ s2), p'. split; [|done].
    simpl. rewrite decide_True by done. simpl.
    by rewrite run_pool_app, Hrun1.
Qed.

End PoolInvariant.

(** *** The order of the output, for any provider *)

Section PipelineOrder.
Context {vec : Type}.
Variable split_pmc_document : string -> Z -> Z -> list chunk.
Variables (cfg : config) (c : client vec).
Variables (model : string) (min_chars max_chars : Z).

Local Abbreviation embed_pmc_articles :=
  (embed_pmc_articles split_pmc_document cfg c model min_chars max_chars).

(** The meta-data of the chunks of an article, in the order the chunker
    gives them. *)
Definition article_metas (a : article) : list (string * string * Z * Z) :=
  map (chunk_meta (art_pmcid a))
    (split_pmc_document (art_text a) min_chars max_chars).

(** The rows a thread has finished and the chunks it has left are the
    chunks of its article, in order. *)
Definition in_order_so_far (a : article) (t : @thread vec) : Prop :=
  map meta (th_done t) ++ map (chunk_meta (th_pmcid t)) (th_todo t)
  = article_metas a.

Definition in_order (a : article) (r : result (list (row vec))) : Prop :=
  forall rows, r = Ok rows -> map meta rows = article_metas a.

Lemma in_order_start i a :
  in_order_so_far a (start_thread split_pmc_document min_chars max_chars i a).
Proof. done. Qed.

Lemma in_order_advance a t w :
  in_order_so_far a t ->
  match advance_thread cfg c model t w with
  | (inl t', _) => th_future t' = th_future t /\ in_order_so_far a t'
  | (inr r, _) => in_order a r
  end.
Proof.
  unfold in_order_so_far, advance_thread. intros Ht.
  destruct (th_todo t) as [|ch todo].
  - intros rows [= <-]. by rewrite app_nil_r in Ht.
  - destruct (get_openai_embedding cfg c (ch_content ch) model w)
      as [[res|e] w1]; simpl.
    + split; [done|]. rewrite map_app, <- app_assoc. exact Ht.
    + by intros rows.
Qed.

Lemma gather_in_order articles p rest k results out :
  pool_inv in_order_so_far in_order articles p -> pool_done p = true ->
  (forall j a, rest !! j = Some a -> articles !! (k + j) = Some a) ->
  gather p (seq k (length rest)) results = Some (Ok out) ->
  map meta out = map meta results ++ concat (map article_metas rest).
Proof.
  intros Hinv Hdone. revert k results.
  induction rest as [|a rest IH]; intros k results Hrest; simpl.
  - intros [= <-]. by rewrite app_nil_r.
  - destruct (future_result_done in_order_so_far in_order articles p k a Hinv Hdone)
      as (r & -> & Hr).
    { rewrite <- (Nat.add_0_r k). by apply Hrest. }
    destruct r as [rows|e]; [|done]. intros Hout.
    rewrite (IH (S k) (results ++ rows)); [|..|done].
    + by rewrite map_app, (Hr rows eq_refl), <- app_assoc.
    + intros j a' Hj. replace (S k + j) with (k + S j) by lia. by apply Hrest.
Qed.

(** Whatever the provider answers and however the threads are scheduled,
    the rows returned are the chunks of the articles in the order of the
    input. *)
Lemma embed_pmc_articles_metas articles num_workers sched w out w' :
  embed_pmc_articles articles num_workers sched w = Some (Ok out, w') ->
  map meta out = concat (map article_metas articles).
Proof.
  unfold embed_pmc_articles.
  destruct (num_workers <=? 0)%Z; [done|].
  destruct (run_pool _ _ _ _ _ _ _ sched _) as [p|] eqn:Hpool; [|done].
  destruct (pool_done p) eqn:Hdone; [|done].
  pose proof (run_pool_inv split_pmc_document cfg c model min_chars max_chars
                in_order_so_far in_order in_order_start in_order_advance
                articles _ _ _ _ Hpool
                (submit_all_inv in_order_so_far in_order articles w)) as Hinv.
  destruct (gather p (seq 0 (length articles)) []) as [r|] eqn:Hgather; [|done].
  simpl. intros [= -> _].
  by apply (gather_in_order articles p articles 0 [] out Hinv Hdone).
Qed.
End PipelineOrder.

(** *** The output itself, for a stateless provider *)

Section PipelineFacts.
Context {vec : Type}.
Variable split_pmc_document : string -> Z -> Z -> list chunk.
Variables (cfg : config) (c : client vec).
Variables (model : string) (min_chars max_chars : Z).
Hypothesis c_stateless : stateless c.

Local Abbreviation embed_chunks := (embed_chunks cfg c model).
Local Abbreviation _split_embed :=
  (_split_embed split_pmc_document cfg c model min_chars max_chars).
Local Abbreviation embed_in_order :=
  (embed_in_order split_pmc_document cfg c model min_chars max_chars).
Local Abbreviation run_pool :=
  (run_pool split_pmc_document cfg c model min_chars max_chars).
Local Abbreviation embed_pmc_articles :=
  (embed_pmc_articles split_pmc_document cfg c model min_chars max_chars).

Lemma retrying_stateless input more w1 w2 :
  (retrying more (embeddings_create c input model) w1).1
  = (retrying more (embeddings_create c input model) w2).1.
Proof.
  revert w1 w2. induction more as [|more IH]; intros w1 w2; simpl;
    rewrite (c_stateless (requests w1)), (c_stateless (requests w2));
    destruct (respond c [] input model) as [v|e]; try done;
    destruct (retryable e); try done; apply IH.
Qed.

Lemma reexecutor_stateless input w1 w2 :
  (reexecutor cfg (embeddings_create c input model) w1).1
  = (reexecutor cfg (embeddings_create c input model) w2).1.
Proof.
  unfold reexecutor. destruct (1 <? retry_attempts cfg)%Z.
  - apply retrying_stateless.
  - simpl. by rewrite (c_stateless (requests w1)), (c_stateless (requests w2)).
Qed.

Lemma get_openai_embedding_stateless input w1 w2 :
  (get_openai_embedding cfg c input model w1).1
  = (get_openai_embedding cfg c input model w2).1.
Proof.
  unfold get_openai_embedding, bind, try_except, note_client_call, ret.
  match goal with
  | |- (match match ?m1 with _ => _ end with _ => _ end).1
       = (match match ?m2 with _ => _ end with _ => _ end).1 =>
      pose proof (reexecutor_stateless input
        (World (requests w1) (client_calls w1 ++ [input]) (warnings w1))
        (World (requests w2) (client_calls w2 ++ [input]) (warnings w2))) as Heq;
      destruct m1 as [[v1|e1] u1], m2 as [[v2|e2] u2]
  end; simpl in Heq; try discriminate; injection Heq as ->; simpl; try done.
  by destruct (truthy (warn_on_failure cfg)).
Qed.

Lemma embed_chunks_stateless art_id todo done w1 w2 :
  (embed_chunks art_id todo done w1).1 = (embed_chunks art_id todo done w2).1.
Proof.
  revert done w1 w2. induction todo as [|ch todo IH]; intros done w1 w2; simpl.
  - done.
  - unfold bind.
    pose proof (get_openai_embedding_stateless (ch_content ch) w1 w2) as Heq.
    destruct (get_openai_embedding cfg c (ch_content ch) model w1) as [[v1|e1] u1],
             (get_openai_embedding cfg c (ch_content ch) model w2) as [[v2|e2] u2];
      simpl in Heq; try discriminate; injection Heq as ->; [apply IH|done].
Qed.

Lemma embed_in_order_stateless articles results w1 w2 :
  (embed_in_order articles results w1).1 = (embed_in_order articles results w2).1.
Proof.
  revert results w1 w2.
  induction articles as [|a articles IH]; intros results w1 w2; simpl.
  - done.
  - unfold bind.
    pose proof (embed_chunks_stateless (art_pmcid a)
      (split_pmc_document (art_text a) min_chars max_chars) [] w1 w2) as Heq.
    unfold _split_embed.
    destruct (embed_chunks (art_pmcid a) _ [] w1) as [[v1|e1] u1],
             (embed_chunks (art_pmcid a) _ [] w2) as [[v2|e2] u2];
      simpl in Heq; try discriminate; injection Heq as ->; [apply IH|done].
Qed.
(** A thread at work is on its way to the value of [_split_embed] on its
    article, and a resolved future holds that value. *)
Definition on_its_way (a : article) (t : @thread vec) : Prop :=
  value (embed_chunks (th_pmcid t) (th_todo t) (th_done t))
  = value (_split_embed a).

Definition split_embed_value (a : article) (r : result (list (row vec))) : Prop :=
  r = value (_split_embed a).

Lemma on_its_way_start i a :
  on_its_way a (start_thread split_pmc_document min_chars max_chars i a).
Proof. done. Qed.

Lemma on_its_way_advance a t w :
  on_its_way a t ->
  match advance_thread cfg c model t w with
  | (inl t', _) => th_future t' = th_future t /\ on_its_way a t'
  | (inr r, _) => split_embed_value a r
  end.
Proof.
  unfold on_its_way, split_embed_value. intros Hval. unfold advance_thread.
  destruct (th_todo t) as [|ch todo] eqn:Htodo.
  - by rewrite <- Hval.
  - unfold value in Hval. simpl in Hval. unfold bind in Hval.
    pose proof (get_openai_embedding_stateless (ch_content ch) w empty_world) as Heq.
    destruct (get_openai_embedding cfg c (ch_content ch) model w) as [[v1|e1] u1],
      (get_openai_embedding cfg c (ch_content ch) model empty_world) as [[v2|e2] u2];
      simpl in Heq; try discriminate; injection Heq as ->.
    + split; [done|].
      unfold value. cbn [th_pmcid th_todo th_done].
      rewrite <- Hval. apply embed_chunks_stateless.
    + unfold value. by rewrite <- Hval.
Qed.

Lemma gather_done articles p rest k results :
  pool_inv on_its_way split_embed_value articles p -> pool_done p = true ->
  (forall j a, rest !! j = Some a -> articles !! (k + j) = Some a) ->
  gather p (seq k (length rest)) results
  = Some (value (embed_in_order rest results)).
Proof.
  intros Hinv Hdone. revert k results.
  induction rest as [|a rest IH]; intros k results Hrest; simpl.
  - done.
  - destruct (future_result_done on_its_way split_embed_value articles p k a
                Hinv Hdone) as (r & -> & ->).
    { rewrite <- (Nat.add_0_r k). by apply Hrest. }
    unfold value at 2. simpl. unfold bind. unfold value at 1.
    destruct (_split_embed a empty_world) as [[rows|e] w'] eqn:Hsplit; simpl.
    + rewrite IH.
      * f_equal. apply embed_in_order_stateless.
      * intros j a' Hj. replace (S k + j) with (k + S j) by lia. by apply Hrest.
    + done.
Qed.

Lemma run_pool_on_its_way articles workers sched w p :
  run_pool workers sched (submit_all articles w) = Some p ->
  pool_inv on_its_way split_embed_value articles p.
Proof.
  intros Hrun.
  apply (run_pool_inv split_pmc_document cfg c model min_chars max_chars
           on_its_way split_embed_value on_its_way_start on_its_way_advance
           articles _ _ _ _ Hrun).
  apply submit_all_inv.
Qed.

(** Whatever the number of workers and the scheduling, a run of the pool
    returns what the pipeline returns when it takes the articles one after
    the other. *)
Lemma embed_pmc_articles_in_order articles num_workers sched w r w' :
  embed_pmc_articles articles num_workers sched w = Some (r, w') ->
  (0 < num_workers)%Z ->
  r = value (embed_in_order articles []).
Proof.
  unfold embed_pmc_articles. intros Hrun Hpos.
  rewrite (proj2 (Z.leb_gt _ _) Hpos) in Hrun.
  destruct (run_pool _ sched _) as [p|] eqn:Hpool; [|done].
  destruct (pool_done p) eqn:Hdone; [|done].
  pose proof (run_pool_on_its_way articles _ _ _ _ Hpool) as Hinv.
  rewrite (gather_done articles p articles 0 [] Hinv Hdone) in Hrun by done.
  simpl in Hrun. by injection Hrun as <- _.
Qed.

(** The pipeline returns: for any positive number of workers there is a
    scheduling under which [embed_pmc_articles] runs to its end. *)
Lemma embed_pmc_articles_completes articles num_workers w :
  (0 < num_workers)%Z ->
  exists sched r w',
    embed_pmc_articles articles num_workers sched w = Some (r, w').
Proof.
  intros Hpos.
  destruct (queue_runs_out split_pmc_document cfg c model min_chars max_chars
              (Z.to_nat num_workers) (enumerate articles) [] w)
    as (sched & p & Hrun & Hdone); [lia|].
  exists sched, (value (embed_in_order articles [])), (pool_world p).
  unfold embed_pmc_articles. rewrite (proj2 (Z.leb_gt _ _) Hpos).
  unfold submit_all in *. rewrite Hrun, Hdone.
  pose proof (run_pool_on_its_way articles _ _ _ _ Hrun) as Hinv.
  by rewrite (gather_done articles p articles 0 [] Hinv Hdone).
Qed.
End PipelineFacts.

(** A chunker for examples: the first five characters, then the rest. *)
Definition split_at_five (text : string) (min_chars max_chars : Z) : list chunk :=
  let n := String.length text in
  [Chunk (String.substring 0 5 text) 0 5;
   Chunk (String.substring 5 (n - 5) text) 5 (Z.of_nat n)].

(** A provider for examples: the embedding of a text is its length. *)
Definition length_embedder : client (list Z) :=
  Client _ (fun _ input _ => Ok [Z.of_nat (String.length input)]).

(** C7. The list [embed_pmc_articles] returns has the same order for
    [num_workers = 1] and [num_workers = 8], under any scheduling of the
    worker threads: the rows are the chunks of the articles in the order
    of the input, each article's chunks in the chunker's order; and with a
    stateless provider the two lists are the same list, the one obtained
    by taking the articles one after the other. *)
Theorem embed_pmc_articles_order_invariant {vec}
    split_pmc_document cfg (c : client vec) model min_chars max_chars
    articles sched1 sched8 w1 w8 r1 r8 w1' w8' :
  embed_pmc_articles split_pmc_document cfg c model min_chars max_chars
    articles 1 sched1 w1 = Some (r1, w1') ->
  embed_pmc_articles split_pmc_document cfg c model min_chars max_chars
    articles 8 sched8 w8 = Some (r8, w8') ->
  (forall rows1 rows8, r1 = Ok rows1 -> r8 = Ok rows8 ->
     map meta rows1 = map meta rows8 /\
     map meta rows1
     = concat (map (article_metas split_pmc_document min_chars max_chars)
                 articles)) /\
  (stateless c ->
     r1 = r8 /\
     r1 = value (embed_in_order split_pmc_document cfg c model min_chars
                   max_chars articles [])).
Proof.
  intros H1 H8. split.
  - intros rows1 rows8 -> ->.
    apply embed_pmc_articles_metas in H1, H8. split; congruence.
  - intros Hst.
    apply embed_pmc_articles_in_order in H1; [|done|done].
    apply embed_pmc_articles_in_order in H8; [|done|done].
    split; congruence.
Qed.

Lemma embed_pmc_articles_order_invariant_witness :
  let articles := [Article "PMC1" "short sentence."; Article "PMC2" "another one."] in
  let rows :=
    [Row "PMC1" "short" 0 5 (Some [5%Z]); Row "PMC1" " sentence." 5 15 (Some [10%Z]);
     Row "PMC2" "anoth" 0 5 (Some [5%Z]); Row "PMC2" "er one." 5 12 (Some [7%Z])] in
  let in_turn :=
    [Start; Advance 0; Advance 0; Advance 0; Start; Advance 0; Advance 0; Advance 0] in
  let interleaved :=
    [Start; Start; Advance 1; Advance 0; Advance 1; Advance 1; Advance 0; Advance 0] in
  let asked (texts : list string) :=
    World (map (fun t => (t, default_model)) texts) texts [] in
  embed_pmc_articles split_at_five default_config length_embedder default_model
    30 4000 articles 1 in_turn empty_world
  = Some (Ok rows, asked ["short"; " sentence."; "anoth"; "er one."]) /\
  embed_pmc_articles split_at_five default_config length_embedder default_model
    30 4000 articles 8 interleaved empty_world
  = Some (Ok rows, asked ["anoth"; "short"; "er one."; " sentence."]) /\
  map meta rows = concat (map (article_metas split_at_five 30 4000) articles) /\
  Ok rows = value (embed_in_order split_at_five default_config length_embedder
                     default_model 30 4000 articles []).
Proof.
  intros articles rows in_turn interleaved asked.
  split; [vm_compute; reflexivity|]. split; [vm_compute; reflexivity|].
  destruct (embed_pmc_articles_order_invariant split_at_five default_config
              length_embedder default_model 30 4000 articles in_turn interleaved
              empty_world empty_world (Ok rows) (Ok rows)
              (asked ["short"; " sentence."; "anoth"; "er one."])
              (asked ["anoth"; "short"; "er one."; " sentence."]))
    as [Horder Hsame].
  - vm_compute. reflexivity.
  - vm_compute. reflexivity.
  - split.
    + apply (Horder rows rows eq_refl eq_refl).
    + apply Hsame. intros ? ? ?. reflexivity.
Defined.

(** ** The query engine *)

(** Every call of the embedding client is noted once and sends at least one
    request to the provider, whatever comes of it. *)
Lemma retrying_world {vec} (c : client vec) input model more w :
  exists n, (retrying more (embeddings_create c input model) w).2
            = after_attempts w input model (S n).
Proof.
  revert w. induction more as [|more IH]; intros w; simpl.
  - exists 0. by destruct (respond c (requests w) input model) as [v|e];
      [|destruct (retryable e)].
  - destruct (respond c (requests w) input model) as [v|e]; [by exists 0|].
    destruct (retryable e); [|by exists 0].
    destruct (IH (World (requests w ++ [(input, model)]) (client_calls w)
                    (warnings w))) as [n Hn].
    exists (S n). rewrite Hn. apply (after_attempts_S w input model (S n)).
Qed.

Lemma reexecutor_world {vec} cfg (c : client vec) input model w :
  exists n, (reexecutor cfg (embeddings_create c input model) w).2
            = after_attempts w input model (S n).
Proof.
  unfold reexecutor. destruct (1 <? retry_attempts cfg)%Z.
  - apply retrying_world.
  - by exists 0.
Qed.

Lemma get_openai_embedding_world {vec} cfg (c : client vec) input model w :
  let w' := (get_openai_embedding cfg c input model w).2 in
  client_calls w' = client_calls w ++ [input] /\
  exists n, requests w' = requests w ++ replicate (S n) (input, model).
Proof.
  unfold get_openai_embedding, bind, try_except, note_client_call. simpl.
  destruct (reexecutor_world cfg c input model
              (World (requests w) (client_calls w ++ [input]) (warnings w)))
    as [n Hn].
  destruct (reexecutor cfg _ _) as [[v|e] w1]; simpl in Hn; subst w1.
  - split; [done|]. by exists n.
  - destruct (truthy (warn_on_failure cfg)); (split; [done|by exists n]).
Qed.

Section OrderFacts.
Context {L : Type} `{TotalOrd A}.

Lemma py_lt_asym (x y : A) : py_lt x y = true -> py_lt y x = false.
Proof. apply (strict_lt_asym py_lt py_lt_irrefl py_lt_trans). Qed.

Lemma py_not_after_trans (x y z : A) :
  py_lt y x = false -> py_lt z y = false -> py_lt z x = false.
Proof.
  intros Hyx Hzy.
  eapply (strict_not_after_trans py_lt py_lt_trans py_lt_total x y z); done.
Qed.

(** The table is ascending in [distance]: no row has a larger distance
    than a row after it. *)
Definition ascending (rows : list (ranked_row L A)) : Prop :=
  StronglySorted (fun r1 r2 => py_lt (distance r2) (distance r1) = false) rows.

Lemma sort_values_ascending rows : ascending (sort_values rows).
Proof.
  apply (sorted_sorted (fun r1 r2 => py_lt (distance r1) (distance r2))).
  - intros x y. apply py_lt_asym.
  - intros x y z. unfold not_after. apply py_not_after_trans.
Qed.
End OrderFacts.

Lemma sort_values_perm {L} `{PyOrd A} (rows : list (ranked_row L A)) :
  sort_values rows ≡ₚ rows.
Proof. apply sorted_perm. Qed.

(** A provider for examples: every text is embedded at the origin. *)
Definition origin_embedder : client (list Z) :=
  Client _ (fun _ _ _ => Ok [0; 0; 0]%Z).

(** Two documents of two chunks each, at squared distances 9, 1 and 5, 3
    from the origin. *)
Definition two_documents : list (row (list Z)) :=
  [Row "A" "a0" 0 10 (Some [3; 0; 0]%Z); Row "A" "a1" 10 20 (Some [1; 0; 0]%Z);
   Row "B" "b0" 0 10 (Some [1; 2; 0]%Z); Row "B" "b1" 10 20 (Some [1; 1; 1]%Z)].

(** The four meta-data columns of a row of the result. *)
Definition ranked_meta {L A} (r : ranked_row L A) : string * string * Z * Z :=
  (r_pmcid r, r_content r, r_start_char r, r_end_char r).

(** [np.array] accepts the column. *)
Definition converts {vec} (embeddings : list (option vec)) : bool :=
  match np_array embeddings with
  | Ok _ => true
  | Raise _ => false
  end.

Lemma filter_fmap_length {X Y} (f : X -> Y) (P : Y -> Prop)
    `{forall y, Decision (P y)} (l : list X) :
  length (filter P (map f l)) = length (filter (fun x => P (f x)) l).
Proof.
  induction l as [|x l IH]; simpl; [done|].
  rewrite !filter_cons. destruct (decide (P (f x))); simpl; by rewrite IH.
Qed.

Section EngineFacts.
Context {L vec A : Type} `{PyOrd A} `{Metrics vec A}.
Variables (cfg : config) (c : client vec).

Lemma embed_get_chunk_query_distance_inv (df : dataframe L vec) query model
    w rows w' :
  Embed.get_chunk_query_distance cfg c df query model w = (Ok rows, w') ->
  exists qe results table,
    get_openai_embedding cfg c query model w = (Ok qe, w') /\
    for_each (fun g => Embed.query_embeddings (map embedding g.2) qe)
      (groupby df.*2)
    = Ok results /\
    results <> [] /\
    ranks_df df (map fst results) (map snd results) = Ok table /\
    rows = sort_values table.
Proof.
  unfold Embed.get_chunk_query_distance, bind, lift, ret.
  destruct (get_openai_embedding cfg c query model w) as [[qe|e] w1]; [|done].
  destruct (for_each _ (groupby df.*2)) as [results|e] eqn:Hres; [|done].
  destruct results as [|r results]; [done|]. simpl.
  destruct (ranks_df df _ _) as [table|e] eqn:Htable; [|done].
  intros [= <- <-]. by exists qe, (r :: results), table.
Qed.

(** [embed.py] asks for the embedding of the query once, whatever the
    table. *)
Lemma embed_get_chunk_query_distance_calls (df : dataframe L vec) query model w :
  client_calls (Embed.get_chunk_query_distance cfg c df query model w).2
  = client_calls w ++ [query].
Proof.
  unfold Embed.get_chunk_query_distance, bind, lift, ret.
  destruct (get_openai_embedding_world cfg c query model w) as [Hcalls _].
  destruct (get_openai_embedding cfg c query model w) as [[qe|e] w1];
    simpl in *; [|done].
  destruct (for_each _ (groupby df.*2)) as [results|e]; [|done].
  destruct results as [|r results]; [done|]. simpl.
  by destruct (ranks_df df _ _).
Qed.

(** [query.py]'s [query_embeddings] asks for the embedding of the query
    once, unless [np.array] has refused the column before. *)
Lemma query_query_embeddings_calls embeddings query distance_metric w :
  client_calls (Query.query_embeddings cfg c embeddings query distance_metric w).2
  = client_calls w ++ (if converts embeddings then [query] else []).
Proof.
  unfold Query.query_embeddings, converts, bind, lift, ret, raise.
  destruct (np_array embeddings) as [X|e]; simpl; [|by rewrite app_nil_r].
  destruct (get_openai_embedding_world cfg c query default_model w) as [Hcalls _].
  destruct (get_openai_embedding cfg c query default_model w) as [[qe|e] w1];
    simpl in *; [|done].
  destruct (Query.metric_distances _ _ _) as [[ds|e]|]; try done.
  by destruct (_rank_numbers ds).
Qed.

Lemma run_futures_calls (groups : list (list (option vec))) query w :
  client_calls
    (Query.run_futures
       (map (fun g => Query.query_embeddings cfg c g query "euclidean") groups) w).2
  = client_calls w
    ++ replicate (length (filter (fun g => converts g = true) groups)) query.
Proof.
  revert w. induction groups as [|g groups IH]; intros w; simpl.
  - by rewrite app_nil_r.
  - pose proof (query_query_embeddings_calls g query "euclidean" w) as Hg.
    destruct (Query.query_embeddings cfg c g query "euclidean" w) as [r w1].
    specialize (IH w1). destruct (Query.run_futures _ w1) as [rs w2].
    simpl in *. rewrite IH, Hg, <- app_assoc. f_equal.
    rewrite filter_cons. destruct (converts g); by case_decide.
Qed.

(** [query.py] asks for the embedding of the query once for every group
    whose column [np.array] accepts. *)
Lemma query_get_chunk_query_distance_calls (df : dataframe L vec) query
    num_workers w :
  (0 < num_workers)%Z ->
  client_calls (Query.get_chunk_query_distance cfg c df query num_workers w).2
  = client_calls w
    ++ replicate
         (length (filter (fun g => converts (map embedding g.2) = true)
                    (groupby df.*2))) query.
Proof.
  intros Hpos. unfold Query.get_chunk_query_distance.
  rewrite (proj2 (Z.leb_gt _ _) Hpos). unfold bind, lift.
  pose proof (run_futures_calls (map (fun g => map embedding g.2) (groupby df.*2))
                query w) as Hrun.
  rewrite map_map in Hrun.
  rewrite (filter_fmap_length (fun g => map embedding g.2)
             (fun e => converts e = true)) in Hrun.
  destruct (Query.run_futures _ w) as [rs w1]. simpl in Hrun.
  destruct (for_each _ rs) as [results|e]; [|done].
  by destruct results as [|r results].
Qed.
End EngineFacts.

(** On any table, [embed.py] returns a table ascending in [distance]. *)
Lemma embed_get_chunk_query_distance_ascending {L vec A} `{TotalOrd A}
    `{Metrics vec A} cfg (c : client vec) (df : dataframe L vec) query model
    w rows w' :
  Embed.get_chunk_query_distance cfg c df query model w = (Ok rows, w') ->
  ascending rows.
Proof.
  intros Hrun.
  apply embed_get_chunk_query_distance_inv in Hrun
    as (qe & results & table & _ & _ & _ & _ & ->).
  apply sort_values_ascending.
Qed.

(** C2. The claim fails on [query.py]: on a table of two documents its
    [get_chunk_query_distance] calls [get_openai_embedding] twice for the
    one query (once per group), where [embed.py] calls it once. *)
Theorem query_py_embeds_query_per_group :
  client_calls
    (Query.get_chunk_query_distance default_config origin_embedder
       (DataFrame two_documents) "short" 1 empty_world).2
  = ["short"; "short"] /\
  client_calls
    (Embed.get_chunk_query_distance default_config origin_embedder
       (DataFrame two_documents) "short" default_model empty_world).2
  = ["short"].
Proof. split; vm_compute; reflexivity. Qed.

(** C3. The claim fails on [query.py]: its [get_chunk_query_distance]
    returns the rows in the order of the input table, here with distances
    9, 1, 5, 3, which is not ascending; [embed.py] sorts the same table. *)
Theorem query_py_result_not_sorted :
  exists rows,
    (Query.get_chunk_query_distance default_config origin_embedder
       (DataFrame two_documents) "short" 1 empty_world).1 = Ok rows /\
    map distance rows = [9; 1; 5; 3]%Z /\
    ~ ascending rows /\
    map distance <$>
      (Embed.get_chunk_query_distance default_config origin_embedder
         (DataFrame two_documents) "short" default_model empty_world).1
    = Ok [1; 3; 5; 9]%Z.
Proof.
  eexists. split; [vm_compute; reflexivity|].
  split; [reflexivity|]. split; [|vm_compute; reflexivity].
  intros Hasc. apply StronglySorted_inv in Hasc as [_ Hfirst].
  apply Forall_inv in Hfirst. vm_compute in Hfirst. discriminate.
Qed.

(** C8. The claim fails on the code: with a [distance_metric] that is
    neither "euclidean" nor "cosine", [query_embeddings] looks at the
    metric last.  When [np.array] refuses the column, the call ends there,
    with that error and whatever the metric.  On every other column the
    embedding client is called, which sends at least one request to the
    provider, and only then the call raises; when the embedding call
    itself succeeds the exception is the [UnboundLocalError] of the unbound
    [distances]. *)
Theorem query_embeddings_invalid_metric {vec A} `{PyOrd A} `{Metrics vec A}
    cfg (c : client vec) embeddings query distance_metric w :
  distance_metric <> "euclidean" -> distance_metric <> "cosine" ->
  let out := Query.query_embeddings (A := A) cfg c embeddings query
               distance_metric w in
  match np_array embeddings with
  | Raise e => out = (Raise e, w)
  | Ok _ =>
      client_calls out.2 = client_calls w ++ [query] /\
      (exists n, requests out.2
                 = requests w ++ replicate (S n) (query, default_model)) /\
      (exists e, out.1 = Raise e) /\
      (forall qe,
          (get_openai_embedding cfg c query default_model w).1 = Ok qe ->
          out.1 = Raise (UnboundLocalError "distances"))
  end.
Proof.
  intros Heu Hcos out. subst out.
  unfold Query.query_embeddings, Query.metric_distances, bind, lift, raise.
  rewrite (proj2 (String.eqb_neq _ _) Heu), (proj2 (String.eqb_neq _ _) Hcos).
  destruct (np_array embeddings) as [X|e]; [|done].
  destruct (get_openai_embedding_world cfg c query default_model w)
    as [Hcalls Hreqs].
  destruct (get_openai_embedding cfg c query default_model w) as [[qe|e] w1];
    simpl in *; repeat split; eauto; by intros qe' [=].
Qed.

Lemma query_embeddings_invalid_metric_witness :
  Query.query_embeddings (A := Z) default_config origin_embedder
    [Some [1; 0; 0]%Z] "short" "manhattan" empty_world
  = (Raise (UnboundLocalError "distances"),
     World [("short", default_model)] ["short"] []).
Proof.
  assert (Hraise : forall qe,
            (get_openai_embedding default_config origin_embedder "short"
               default_model empty_world).1 = Ok qe ->
            (Query.query_embeddings (A := Z) default_config origin_embedder
               [Some [1; 0; 0]%Z] "short" "manhattan" empty_world).1
            = Raise (UnboundLocalError "distances")).
  { exact (proj2 (proj2 (proj2
             (query_embeddings_invalid_metric (A := Z) default_config
                origin_embedder [Some [1; 0; 0]%Z] "short" "manhattan"
                empty_world ltac:(done) ltac:(done))))). }
  specialize (Hraise (Some [0; 0; 0]%Z) eq_refl).
  destruct (Query.query_embeddings _ _ _ _ _ _) as [r w'] eqn:Hrun.
  simpl in Hraise. subst r. f_equal.
  apply (f_equal snd) in Hrun. simpl in Hrun. rewrite <- Hrun.
  vm_compute. reflexivity.
Defined.

(** ** Grouping *)

Lemma unique_elem k keys : k ∈ unique keys <-> k ∈ keys.
Proof.
  induction keys as [|k' keys IH]; simpl; [done|].
  rewrite !elem_of_cons, list_elem_of_filter, IH.
  split; [intros [?|[_ ?]]; auto|].
  intros [?|?]; [auto|]. destruct (decide (k = k')); auto.
Qed.

Lemma unique_NoDup keys : NoDup (unique keys).
Proof.
  induction keys as [|k keys IH]; simpl; constructor.
  - rewrite list_elem_of_filter. by intros [? _].
  - by apply NoDup_filter.
Qed.

(** The rows of the group [k], in their order in the table. *)
Definition rows_of {vec} (k : string) (df : list (row vec)) : list (row vec) :=
  filter (fun r => pmcid r = k) df.

(** Every row of the table is in the group of its [pmcid]. *)
Lemma groupby_elem {vec} (df : list (row vec)) r :
  r ∈ df ->
  (pmcid r, rows_of (pmcid r) df) ∈ groupby df /\ r ∈ rows_of (pmcid r) df.
Proof.
  intros Hr. split.
  - unfold groupby. apply list_elem_of_fmap.
    exists (pmcid r). split; [done|].
    apply unique_elem, list_elem_of_fmap. by exists r.
  - by apply list_elem_of_filter.
Qed.


Lemma groupby_rows {vec} (df : list (row vec)) g r :
  g ∈ groupby df -> r ∈ g.2 -> r ∈ df.
Proof.
  unfold groupby. intros (k & -> & Hk)%list_elem_of_fmap. simpl.
  by intros [_ ?]%list_elem_of_filter.
Qed.

Lemma for_each_Ok {X Y} (f : X -> result Y) xs ys :
  for_each f xs = Ok ys -> Forall2 (fun x y => f x = Ok y) xs ys.
Proof.
  revert ys. induction xs as [|x xs IH]; intros ys; simpl.
  - intros [= <-]. constructor.
  - destruct (f x) as [y|e] eqn:Hx; [|done]. simpl.
    destruct (for_each f xs) as [ys'|e]; [|done]. simpl.
    intros [= <-]. constructor; [done|]. by apply IH.
Qed.

Lemma for_each_Raise {X Y} (f : X -> result Y) xs x e :
  x ∈ xs -> f x = Raise e -> exists e', for_each f xs = Raise e'.
Proof.
  intros Hx Hfx. destruct (for_each f xs) as [ys|e'] eqn:Hfor; [|by exists e'].
  apply for_each_Ok in Hfor.
  apply list_elem_of_lookup in Hx as [i Hi].
  destruct (Forall2_lookup_l _ _ _ _ _ Hfor Hi) as (y & _ & Hy). congruence.
Qed.

(** The exception of a comprehension is the exception of one of its
    calls. *)
Lemma for_each_Raise_inv {X Y} (f : X -> result Y) xs e :
  for_each f xs = Raise e -> exists x, x ∈ xs /\ f x = Raise e.
Proof.
  induction xs as [|x xs IH]; simpl; [done|].
  destruct (f x) as [y|e'] eqn:Hx; simpl.
  - destruct (for_each f xs) as [ys|e'']; simpl; [done|].
    intros [= ->]. destruct IH as (x' & Hin & Hx'); [done|].
    exists x'. split; [by right|done].
  - intros [= ->]. exists x. split; [left|done].
Qed.


(** What the futures of the pool hold are the outcomes of the work items,
    each run in some world. *)
Lemma run_futures_Forall2 {B} (tasks : list (M B)) w :
  Forall2 (fun task r => exists w1, (task w1).1 = r)
    tasks (Query.run_futures tasks w).1.
Proof.
  revert w. induction tasks as [|t tasks IH]; intros w; simpl; [constructor|].
  destruct (t w) as [r w1] eqn:Ht. specialize (IH w1).
  destruct (Query.run_futures tasks w1) as [rs w2]. simpl in *.
  constructor; [|done]. exists w. by rewrite Ht.
Qed.

Lemma run_futures_elem {B} (tasks : list (M B)) w task :
  task ∈ tasks ->
  exists w1, (task w1).1 ∈ (Query.run_futures tasks w).1.
Proof.
  intros [i Hi]%list_elem_of_lookup.
  destruct (Forall2_lookup_l _ _ _ _ _ (run_futures_Forall2 tasks w) Hi)
    as (r & Hr & w1 & <-).
  exists w1. by eapply list_elem_of_lookup_2.
Qed.

Lemma run_futures_elem_inv {B} (tasks : list (M B)) w r :
  r ∈ (Query.run_futures tasks w).1 ->
  exists task w1, task ∈ tasks /\ (task w1).1 = r.
Proof.
  intros [i Hi]%list_elem_of_lookup.
  destruct (Forall2_lookup_r _ _ _ _ _ (run_futures_Forall2 tasks w) Hi)
    as (task & Htask & w1 & <-).
  exists task, w1. split; [by eapply list_elem_of_lookup_2|done].
Qed.

(** ** Chunks without an embedding *)

Lemma as_matrix_missing {vec} (embeddings : list (option vec)) :
  None ∈ embeddings -> as_matrix embeddings = None.
Proof.
  induction embeddings as [|[v|] es IH]; simpl.
  - by intros ?%elem_of_nil.
  - intros [?|Hin]%elem_of_cons; [done|]. by rewrite IH.
  - done.
Qed.

(** A column with a [None] is refused by [np.array], or becomes an array
    of objects. *)
Lemma np_array_missing {vec} (embeddings : list (option vec)) :
  None ∈ embeddings ->
  np_array embeddings = Ok (Objects (length embeddings)) \/
  np_array embeddings = Raise inhomogeneous_shape.
Proof.
  intros Hin. unfold np_array. rewrite (as_matrix_missing _ Hin).
  destruct (forallb missing embeddings); auto.
Qed.

Lemma np_array_mixed {vec} (embeddings : list (option vec)) v :
  None ∈ embeddings -> Some v ∈ embeddings ->
  np_array embeddings = Raise inhomogeneous_shape.
Proof.
  intros Hnone Hsome. unfold np_array. rewrite (as_matrix_missing _ Hnone).
  destruct (forallb missing embeddings) eqn:Hall; [|done].
  assert (Hf : Forall (fun e => missing e) embeddings).
  { apply forallb_True. by rewrite Hall. }
  rewrite Forall_forall in Hf. by destruct (Hf (Some v) Hsome).
Qed.

Section MissingEmbedding.
Context {L vec A : Type} `{PyOrd A} `{Metrics vec A}.
Variables (cfg : config) (c : client vec).

Lemma embed_query_embeddings_missing embeddings qe :
  None ∈ embeddings ->
  exists m, Embed.query_embeddings (A := A) embeddings qe = Raise (ValueError m).
Proof.
  intros Hin. unfold Embed.query_embeddings.
  destruct (np_array_missing embeddings Hin) as [-> | ->]; simpl; by eexists.
Qed.

Lemma query_query_embeddings_missing embeddings query metric w :
  None ∈ embeddings ->
  exists e,
    (Query.query_embeddings (A := A) cfg c embeddings query metric w).1
    = Raise e.
Proof.
  intros Hin. unfold Query.query_embeddings, bind, lift, raise.
  destruct (np_array_missing embeddings Hin) as [-> | ->]; simpl; [|by eexists].
  destruct (get_openai_embedding cfg c query default_model w) as [[qe|e] w1];
    [|by exists e].
  unfold Query.metric_distances.
  destruct (String.eqb metric "euclidean"); [simpl; by eexists|].
  destruct (String.eqb metric "cosine"); simpl; by eexists.
Qed.

Lemma query_query_embeddings_mixed embeddings v query metric w :
  None ∈ embeddings -> Some v ∈ embeddings ->
  Query.query_embeddings (A := A) cfg c embeddings query metric w
  = (Raise inhomogeneous_shape, w).
Proof.
  intros Hnone Hsome. unfold Query.query_embeddings, bind, lift.
  by rewrite (np_array_mixed embeddings v Hnone Hsome).
Qed.

(** C4, as the code has it.  A chunk without an embedding is not left out
    of anything.  The [embedding] column of its document goes as it is,
    [None] included, to [query_embeddings], which raises on it in both
    modules: a [ValueError] of [np.array] or of the distance function in
    [embed.py]; in [query.py] the error of [np.array], with no call of
    the embedding client, when the column also holds a vector.  And
    [get_chunk_query_distance] returns no table: it raises what
    [query_embeddings] raised on a group of the table, unless the
    embedding of the query ([embed.py]) or the worker count ([query.py])
    failed before. *)
Theorem missing_embedding_raises (df : dataframe L vec) r :
  r ∈ df.*2 -> embedding r = None ->
  let column := map embedding (rows_of (pmcid r) df.*2) in
  ((pmcid r, rows_of (pmcid r) df.*2) ∈ groupby df.*2 /\
   None ∈ column /\
   (forall qe, exists m,
       Embed.query_embeddings (A := A) column qe = Raise (ValueError m)) /\
   (forall query metric w, exists e,
       (Query.query_embeddings (A := A) cfg c column query metric w).1
       = Raise e) /\
   (forall v query metric w, Some v ∈ column ->
       Query.query_embeddings (A := A) cfg c column query metric w
       = (Raise inhomogeneous_shape, w))) /\
  (forall query model w, exists e,
      (Embed.get_chunk_query_distance (A := A) cfg c df query model w).1
      = Raise e /\
      ((get_openai_embedding cfg c query model w).1 = Raise e \/
       exists qe g,
         (get_openai_embedding cfg c query model w).1 = Ok qe /\
         g ∈ groupby df.*2 /\
         Embed.query_embeddings (A := A) (map embedding g.2) qe = Raise e)) /\
  (forall query num_workers w, exists e,
      (Query.get_chunk_query_distance (A := A) cfg c df query num_workers w).1
      = Raise e /\
      (((num_workers <= 0)%Z /\
        e = ValueError "max_workers must be greater than 0") \/
       exists g w1,
         g ∈ groupby df.*2 /\
         (Query.query_embeddings (A := A) cfg c (map embedding g.2) query
            "euclidean" w1).1 = Raise e)).
Proof.
  intros Hr Hnone column.
  destruct (groupby_elem df.*2 r Hr) as [Hg Hrg].
  assert (Hmissing : None ∈ column).
  { apply list_elem_of_fmap. exists r. by split. }
  split; [|split].
  - split; [done|]. split; [done|]. split; [|split].
    + intros qe. by apply embed_query_embeddings_missing.
    + intros query metric w. by apply query_query_embeddings_missing.
    + intros v query metric w Hv. by eapply query_query_embeddings_mixed.
  - intros query model w.
    unfold Embed.get_chunk_query_distance, bind, lift.
    destruct (get_openai_embedding cfg c query model w) as [[qe|e] w1];
      [|exists e; split; [done|by left]].
    destruct (embed_query_embeddings_missing column qe Hmissing) as [m Hm].
    destruct (for_each_Raise
                (fun g => Embed.query_embeddings (A := A) (map embedding g.2) qe)
                _ (pmcid r, rows_of (pmcid r) df.*2) _ Hg Hm) as [e' He'].
    rewrite He'. exists e'. split; [done|]. right.
    apply for_each_Raise_inv in He' as (g & Hin & Hraise).
    by exists qe, g.
  - intros query num_workers w.
    unfold Query.get_chunk_query_distance.
    destruct (Z.leb_spec num_workers 0) as [Hle|Hpos].
    { eexists. split; [done|]. by left. }
    unfold bind, lift.
    set (tasks := map (fun g => Query.query_embeddings (A := A) cfg c
                                  (map embedding g.2) query "euclidean")
                    (groupby df.*2)).
    assert (Htask : Query.query_embeddings (A := A) cfg c column query
                      "euclidean" ∈ tasks).
    { apply list_elem_of_fmap.
      by exists (pmcid r, rows_of (pmcid r) df.*2). }
    destruct (run_futures_elem _ w _ Htask) as [w1 Hin].
    destruct (query_query_embeddings_missing column query "euclidean" w1
                Hmissing) as [e He].
    rewrite He in Hin.
    pose proof (run_futures_elem_inv tasks w) as Hfrom.
    destruct (Query.run_futures tasks w) as [rs w2]. simpl in Hin, Hfrom.
    destruct (for_each_Raise (fun future => future) rs _ e Hin eq_refl)
      as [e' He'].
    rewrite He'. exists e'. split; [done|]. right.
    apply for_each_Raise_inv in He' as (future & Hfut & ->).
    destruct (Hfrom _ Hfut) as (task & w3 & Htask' & Hrun).
    apply list_elem_of_fmap in Htask' as (g & -> & Hg').
    by exists g, w3.
Qed.
End MissingEmbedding.

(** The first document of [two_documents], its second chunk left without
    an embedding. *)
Definition one_missing : list (row (list Z)) :=
  [Row "A" "a0" 0 10 (Some [3; 0; 0]%Z); Row "A" "a1" 10 20 None].

Lemma missing_embedding_raises_witness :
  Embed.query_embeddings (A := Z) (map embedding one_missing)
    (Some [0; 0; 0]%Z) = Raise inhomogeneous_shape /\
  Query.query_embeddings (A := Z) default_config origin_embedder
    (map embedding one_missing) "short" "euclidean" empty_world
  = (Raise inhomogeneous_shape, empty_world) /\
  (Embed.get_chunk_query_distance (A := Z) default_config origin_embedder
     (DataFrame one_missing) "short" default_model empty_world).1
  = Raise inhomogeneous_shape /\
  (Query.get_chunk_query_distance (A := Z) default_config origin_embedder
     (DataFrame one_missing) "short" 1 empty_world).1
  = Raise inhomogeneous_shape.
Proof.
  destruct (missing_embedding_raises (A := Z) default_config origin_embedder
              (DataFrame one_missing) (Row "A" "a1" 10 20 None))
    as ((_ & _ & _ & _ & Hmixed) & _ & _).
  - apply elem_of_cons. right. apply elem_of_cons. by left.
  - reflexivity.
  - split; [vm_compute; reflexivity|]. split; [|by vm_compute].
    apply (Hmixed [3; 0; 0]%Z "short" "euclidean" empty_world).
    apply elem_of_cons. by left.
Defined.

(** The claim C4 as stated: the engine returns a table, and every row of
    it is a chunk of the input that has an embedding. *)
Definition excludes_missing {L vec A} (df : dataframe L vec)
    (outcome : result (list (ranked_row L A))) : Prop :=
  exists rows, outcome = Ok rows /\
    forall r, r ∈ rows ->
      exists chunk v,
        (index r, chunk) ∈ df /\ ranked_meta r = meta chunk /\
        embedding chunk = Some v.

Lemma missing_embedding_not_excluded :
  ~ excludes_missing (DataFrame one_missing)
      (Embed.get_chunk_query_distance (A := Z) default_config origin_embedder
         (DataFrame one_missing) "short" default_model empty_world).1.
Proof.
  intros (rows & Hrows & _). vm_compute in Hrows. discriminate.
Qed.

(** ** Rows and groups under contiguity *)

(** All rows that share a [pmcid] stand next to each other. *)
Definition contiguous {vec} (df : list (row vec)) : Prop :=
  forall i j k ri rj rk,
    df !! i = Some ri -> df !! j = Some rj -> df !! k = Some rk ->
    i < j -> j < k -> pmcid ri = pmcid rk -> pmcid rj = pmcid ri.

(** The groups of the keys [ks], one after the other. *)
Definition gathered {vec} (ks : list string) (df : list (row vec))
  : list (row vec) :=
  concat (map (fun k => rows_of k df) ks).

Lemma filter_all {X} (P : X -> Prop) `{forall x, Decision (P x)} l :
  Forall P l -> filter P l = l.
Proof.
  induction 1 as [|x l Hx _ IH]; [done|].
  by rewrite filter_cons_True, IH.
Qed.

Lemma filter_none {X} (P : X -> Prop) `{forall x, Decision (P x)} l :
  Forall (fun x => ~ P x) l -> filter P l = [].
Proof.
  induction 1 as [|x l Hx _ IH]; [done|].
  by rewrite filter_cons_False.
Qed.

Lemma groupby_groups {vec} (df : list (row vec)) :
  (groupby df).*2 = map (fun k => rows_of k df) (unique (map pmcid df)).
Proof. unfold groupby. by rewrite <- list_fmap_compose. Qed.

Lemma groupby_keys {vec} (df : list (row vec)) :
  (groupby df).*1 = unique (map pmcid df).
Proof.
  unfold groupby. rewrite <- list_fmap_compose. apply list_fmap_id.
Qed.

Lemma gathered_skip {vec} ks (r : row vec) df :
  Forall (fun k => k <> pmcid r) ks -> gathered ks (r :: df) = gathered ks df.
Proof.
  unfold gathered. induction 1 as [|k ks Hk _ IH]; simpl; [done|].
  rewrite IH. f_equal. unfold rows_of. apply filter_cons_False. congruence.
Qed.

Lemma contiguous_tail {vec} (r : row vec) df :
  contiguous (r :: df) -> contiguous df.
Proof.
  intros Hc i j k ri rj rk Hi Hj Hk Hij Hjk.
  apply (Hc (S i) (S j) (S k)); simpl; try done; lia.
Qed.

Lemma contiguous_head {vec} (r r2 : row vec) df :
  contiguous (r :: r2 :: df) -> pmcid r ∈ map pmcid (r2 :: df) ->
  pmcid r2 = pmcid r.
Proof.
  intros Hc Hin. apply list_elem_of_fmap in Hin as (r' & Hkey & Hin).
  apply elem_of_cons in Hin as [->|Hin]; [done|].
  apply list_elem_of_lookup in Hin as [m Hm].
  apply (Hc 0 1 (S (S m)) r r2 r'); simpl; try done; lia.
Qed.

Lemma unique_filter_self k keys :
  filter (fun k' => k' <> k) (unique (k :: keys))
  = filter (fun k' => k' <> k) (unique keys).
Proof.
  simpl. rewrite filter_cons_False by (intros Hne; by apply Hne).
  rewrite list_filter_filter. apply list_filter_iff. intros k'. tauto.
Qed.

(** In a contiguous table the groups, one after the other in the order
    their keys first appear, are the table itself. *)
Lemma groupby_contiguous {vec} (df : list (row vec)) :
  contiguous df -> concat (groupby df).*2 = df.
Proof.
  rewrite groupby_groups. fold (gathered (unique (map pmcid df)) df).
  induction df as [|r df IH]; intros Hc; [done|].
  specialize (IH (contiguous_tail r df Hc)).
  simpl. unfold gathered. simpl.
  fold (gathered (filter (fun k' => k' <> pmcid r) (unique (map pmcid df)))
          (r :: df)).
  rewrite gathered_skip.
  2:{ apply Forall_forall. intros k Hk. by apply list_elem_of_filter in Hk as [? _]. }
  unfold rows_of at 1. rewrite filter_cons_True by done. simpl. f_equal.
  destruct (decide (pmcid r ∈ map pmcid df)) as [Hin|Hnin].
  - destruct df as [|r2 df]; [by apply elem_of_nil in Hin|].
    pose proof (contiguous_head r r2 df Hc Hin) as Hr2.
    rewrite <- Hr2.
    change (map pmcid (r2 :: df)) with (pmcid r2 :: map pmcid df) in *.
    rewrite unique_filter_self. exact IH.
  - rewrite (filter_none (fun r' => pmcid r' = pmcid r)).
    2:{ apply Forall_forall. intros r' Hr' Hkey. apply Hnin.
        apply list_elem_of_fmap. by exists r'. }
    rewrite filter_all; [done|].
    apply Forall_forall. intros k Hk ->. apply Hnin. by apply unique_elem.
Qed.

Section ConcatFacts.
Context {X : Type}.

Lemma concat_lookup_inv (ls : list (list X)) i x :
  concat ls !! i = Some x ->
  exists t j l, ls !! t = Some l /\ l !! j = Some x /\
                i = length (concat (take t ls)) + j.
Proof.
  revert i. induction ls as [|l0 ls IH]; intros i Hi; simpl in Hi; [done|].
  destruct (decide (i < length l0)) as [Hlt|Hge].
  - rewrite lookup_app_l in Hi by done. by exists 0, i, l0.
  - rewrite lookup_app_r in Hi by lia.
    destruct (IH _ Hi) as (t & j & l & Ht & Hj & Hij).
    exists (S t), j, l. split; [done|]. split; [done|].
    simpl. rewrite length_app. lia.
Qed.

Lemma concat_lookup_at (ls : list (list X)) t j l :
  ls !! t = Some l -> j < length l ->
  concat ls !! (length (concat (take t ls)) + j) = l !! j.
Proof.
  revert t. induction ls as [|l0 ls IH]; intros t Ht Hj; [done|].
  destruct t as [|t]; simpl in *.
  - injection Ht as ->. by rewrite lookup_app_l.
  - rewrite length_app, lookup_app_r by lia.
    replace (length l0 + length (concat (take t ls)) + j - length l0)
      with (length (concat (take t ls)) + j) by lia.
    by apply IH.
Qed.

Lemma take_concat_at (ls : list (list X)) t j l :
  ls !! t = Some l -> j <= length l ->
  take (length (concat (take t ls)) + j) (concat ls)
  = concat (take t ls) ++ take j l.
Proof.
  revert t. induction ls as [|l0 ls IH]; intros t Ht Hj; [done|].
  destruct t as [|t]; simpl in *.
  - injection Ht as ->. by rewrite take_app_le.
  - rewrite length_app, <- Nat.add_assoc, take_app_add.
    rewrite <- app_assoc. f_equal. by apply IH.
Qed.

Lemma elem_of_concat (ls : list (list X)) x :
  x ∈ concat ls -> exists l, x ∈ l /\ l ∈ ls.
Proof.
  induction ls as [|l0 ls IH]; simpl; [by intros ?%elem_of_nil|].
  intros [Hx|Hx]%elem_of_app.
  - exists l0. split; [done|left].
  - destruct (IH Hx) as (l & ? & ?). exists l. split; [done|by right].
Qed.

Lemma concat_take_length {Y} (ls : list (list X)) (ks : list (list Y)) t :
  Forall2 (fun l k => length l = length k) ls ks ->
  length (concat (take t ls)) = length (concat (take t ks)).
Proof.
  intros Hlen. revert t.
  induction Hlen as [|l k ls ks Hl _ IH]; intros [|t]; simpl; try done.
  rewrite !length_app, Hl. by rewrite IH.
Qed.

End ConcatFacts.

Lemma set_columns_lookup {L vec A} (df : dataframe L vec) (ds : list A) ks i r :
  set_columns df ds ks !! i = Some r ->
  exists l chunk d k,
    df !! i = Some (l, chunk) /\ ds !! i = Some d /\ ks !! i = Some k /\
    r = RankedRow l (pmcid chunk) (content chunk) (start_char chunk)
          (end_char chunk) d k.
Proof.
  revert ds ks i.
  induction df as [|[l chunk] df IH]; intros [|d ds] [|k ks] i Hi; try done.
  destruct i as [|i]; simpl in Hi.
  - injection Hi as <-. by exists l, chunk, d, k.
  - destruct (IH ds ks i Hi) as (l' & chunk' & d' & k' & ? & ? & ? & ->).
    by exists l', chunk', d', k'.
Qed.

(** The new table has the labels and the meta-data of the input, row by
    row. *)
Lemma set_columns_labels {L vec A} (df : dataframe L vec) (ds : list A) ks :
  length ds = length df -> length ks = length df ->
  map (fun r => (index r, ranked_meta r)) (set_columns df ds ks)
  = map (fun lr => (lr.1, meta lr.2)) df.
Proof.
  revert ds ks.
  induction df as [|[l chunk] df IH]; intros [|d ds] [|k ks] Hd Hk; try done.
  simpl in *. f_equal. apply IH; lia.
Qed.

Lemma set_columns_length {L vec A} (df : dataframe L vec) (ds : list A) ks :
  length ds = length df -> length ks = length df ->
  length (set_columns df ds ks) = length df.
Proof.
  intros Hd Hk.
  rewrite <- (length_map (fun r => (index r, ranked_meta r))).
  by rewrite set_columns_labels, length_map.
Qed.

Lemma as_matrix_Some {vec} (embeddings : list (option vec)) X :
  as_matrix embeddings = Some X -> embeddings = map Some X.
Proof.
  revert X. induction embeddings as [|[v|] es IH]; intros X; simpl.
  - by intros [= <-].
  - destruct (as_matrix es) as [X'|]; [|done]. simpl.
    intros [= <-]. simpl. f_equal. by apply IH.
  - done.
Qed.

Lemma as_matrix_present {vec} (embeddings : list (option vec)) :
  Forall is_Some embeddings ->
  exists X, as_matrix embeddings = Some X /\ length X = length embeddings.
Proof.
  induction 1 as [|o es [v ->] _ (X & HX & Hlen)]; simpl; [by exists []|].
  rewrite HX. exists (v :: X). simpl. by rewrite Hlen.
Qed.

(** The distances of a column, from the list to the numbers: [np.array],
    then the distance function. *)
Definition column_distances {vec A} (metric : vec -> vec -> A)
    (embeddings : list (option vec)) (query : option vec) : result (list A) :=
  X ← np_array embeddings; pairwise_distances metric X query.

Lemma column_distances_Ok {vec A} (metric : vec -> vec -> A)
    embeddings query ds :
  column_distances metric embeddings query = Ok ds ->
  exists qe, query = Some qe /\ length ds = length embeddings /\
    forall j o, embeddings !! j = Some o ->
      exists e, o = Some e /\ ds !! j = Some (metric e qe).
Proof.
  unfold column_distances, np_array.
  destruct (as_matrix embeddings) as [X|] eqn:HX.
  - simpl. destruct X as [|x X]; [done|].
    destruct query as [qe|]; [|done]. intros Hds.
    apply as_matrix_Some in HX. rewrite HX.
    change (Ok (map (fun x0 => metric x0 qe) (x :: X)) = Ok ds) in Hds.
    injection Hds as <-.
    change (metric x qe :: map (fun x0 => metric x0 qe) X)
      with (map (fun x0 => metric x0 qe) (x :: X)).
    exists qe. split; [done|]. split; [by rewrite !length_map|].
    intros j o Hj. rewrite list_lookup_fmap in Hj.
    destruct ((x :: X) !! j) as [e|] eqn:He; [|done]. injection Hj as <-.
    exists e. split; [done|]. by rewrite list_lookup_fmap, He.
  - by destruct (forallb missing embeddings).
Qed.

(** ** Row alignment *)

(** The row [r] of a result table carries the values of the [i]-th row of
    the input table: its label and its meta-data, the distance of its
    embedding to the query embedding [qe], and the rank [_rank_numbers]
    gives that chunk among the chunks of its document (chunk number
    [place] of its group, counting the rows of the same [pmcid] before
    it). *)
Definition own_values {L vec A} `{PyOrd A} `{Metrics vec A}
    (df : dataframe L vec) (qe : vec) (i : nat) (r : ranked_row L A) : Prop :=
  exists l chunk e ds ks,
    df !! i = Some (l, chunk) /\
    index r = l /\
    r_pmcid r = pmcid chunk /\ r_content r = content chunk /\
    r_start_char r = start_char chunk /\ r_end_char r = end_char chunk /\
    embedding chunk = Some e /\
    distance r = sq_euclidean e qe /\
    let place := length (rows_of (pmcid chunk) (take i df.*2)) in
    Embed.query_embeddings (map embedding (rows_of (pmcid chunk) df.*2))
      (Some qe)
    = Ok (ds, ks) /\
    ds !! place = Some (distance r) /\
    ks !! place = Some (rank r).

Section Alignment.
Context {L vec A : Type} `{PyOrd A} `{Metrics vec A}.

Lemma query_embeddings_Ok (embeddings : list (option vec)) query ds ks :
  Embed.query_embeddings (A := A) embeddings query = Ok (ds, ks) ->
  column_distances sq_euclidean embeddings query = Ok ds /\
  _rank_numbers ds = Ok ks /\
  length ds = length embeddings /\ length ks = length embeddings.
Proof.
  intros Hrun.
  assert (Hcol : exists ds',
            column_distances sq_euclidean embeddings query = Ok ds' /\
            _rank_numbers ds' = Ok ks /\ ds' = ds).
  { unfold Embed.query_embeddings in Hrun. unfold column_distances.
    destruct (np_array embeddings) as [X|e]; simpl in *; [|done].
    destruct (pairwise_distances sq_euclidean X query) as [ds'|e];
      simpl in *; [|done].
    destruct (_rank_numbers ds') as [ks'|e] eqn:Hks; simpl in *; [|done].
    injection Hrun as <- <-. by exists ds'. }
  destruct Hcol as (ds' & Hds & Hks & ->).
  destruct (column_distances_Ok _ _ _ _ Hds) as (qe & _ & Hlen & _).
  repeat split; try done.
  by rewrite (rank_numbers_length _ _ Hks).
Qed.


Lemma groupby_lookup (df : list (row vec)) t k g :
  groupby df !! t = Some (k, g) ->
  unique (map pmcid df) !! t = Some k /\ g = rows_of k df.
Proof.
  unfold groupby. rewrite list_lookup_fmap.
  destruct (unique (map pmcid df) !! t) as [k'|]; [|done].
  simpl. by intros [= <- <-].
Qed.

(** The rows before the [j]-th chunk of the [t]-th group that are of its
    [pmcid] are the [j] chunks before it in the group. *)
Lemma place_in_group (df : list (row vec)) t k g j :
  concat (groupby df).*2 = df ->
  groupby df !! t = Some (k, g) -> j < length g ->
  length (rows_of k (take (length (concat (take t (groupby df).*2)) + j) df)) = j.
Proof.
  intros Hcat Ht Hj.
  destruct (groupby_lookup df t k g Ht) as [Hk Hg].
  assert (Hgt : (groupby df).*2 !! t = Some g).
  { by rewrite list_lookup_fmap, Ht. }
  rewrite <- Hcat at 2.
  rewrite (take_concat_at _ t j g Hgt) by lia.
  unfold rows_of at 1. rewrite filter_app, length_app.
  rewrite filter_none, filter_all.
  - simpl. rewrite length_take. lia.
  - apply Forall_forall. intros r Hr.
    apply (subseteq_take j g) in Hr.
    rewrite Hg in Hr. by apply list_elem_of_filter in Hr as [? _].
  - apply Forall_forall. intros r Hr Hkey.
    apply elem_of_concat in Hr as (g' & Hr & Hg').
    apply list_elem_of_lookup in Hg' as [t' Ht'].
    apply lookup_take_Some in Ht' as [Ht' Hlt].
    rewrite list_lookup_fmap in Ht'.
    destruct (groupby df !! t') as [[k' g'']|] eqn:Hgt'; [|done].
    simpl in Ht'. injection Ht' as ->.
    destruct (groupby_lookup df t' k' g' Hgt') as [Hk' Hg''].
    rewrite Hg'' in Hr. apply list_elem_of_filter in Hr as [Hkey' _].
    assert (t' = t); [|lia].
    apply (NoDup_lookup (unique (map pmcid df)) t' t k); [apply unique_NoDup| |done].
    congruence.
Qed.

(** The results of the groups are as long as the groups. *)
Lemma results_lengths (P : vec -> Prop) (groups : list (string * list (row vec)))
    (results : list (list A * list nat)) :
  Forall2 (fun g res => exists qe, P qe /\
             Embed.query_embeddings (map embedding g.2) (Some qe) = Ok res)
    groups results ->
  Forall2 (fun g ds => length g = length ds) groups.*2 (map fst results) /\
  Forall2 (fun g ks => length g = length ks) groups.*2 (map snd results).
Proof.
  intros Hres. split; apply Forall2_fmap;
    (eapply Forall2_impl; [exact Hres|]);
    intros [k1 g1] [ds1 ks1] (qe1 & _ & Hq1); simpl in *;
    destruct (query_embeddings_Ok _ _ _ _ Hq1) as (_ & _ & Hl1 & Hl2);
    rewrite length_map in Hl1, Hl2; done.
Qed.

(** In a contiguous table, columns put together from the results of the
    groups give every row its own values. *)
Lemma aligned_table (P : vec -> Prop) (df : dataframe L vec) results i r :
  contiguous df.*2 ->
  Forall2 (fun g res => exists qe, P qe /\
             Embed.query_embeddings (map embedding g.2) (Some qe) = Ok res)
    (groupby df.*2) results ->
  set_columns df (concat (map fst results)) (concat (map snd results)) !! i
  = Some r ->
  exists qe, P qe /\ own_values df qe i r.
Proof.
  intros Hc Hres Hi.
  pose proof (groupby_contiguous df.*2 Hc) as Hcat.
  destruct (set_columns_lookup _ _ _ _ _ Hi)
    as (l & chunk & d & k & Hlchunk & Hd & Hk & ->).
  assert (Hchunk : df.*2 !! i = Some chunk).
  { by rewrite list_lookup_fmap, Hlchunk. }
  assert (Hchunk' := Hchunk). rewrite <- Hcat in Hchunk'.
  destruct (concat_lookup_inv _ _ _ Hchunk') as (t & j & g & Ht & Hj & ->).
  rewrite list_lookup_fmap in Ht.
  destruct (groupby df.*2 !! t) as [[key g']|] eqn:Hgt; [|done].
  simpl in Ht. injection Ht as ->.
  destruct (groupby_lookup df.*2 t key g Hgt) as [Hkey Hg].
  assert (Hpm : pmcid chunk = key).
  { apply list_elem_of_lookup_2 in Hj. rewrite Hg in Hj.
    by apply list_elem_of_filter in Hj as [? _]. }
  destruct (Forall2_lookup_l _ _ _ _ _ Hres Hgt) as ([ds ks] & Hrt & qe & HP & Hq).
  simpl in Hq.
  destruct (query_embeddings_Ok _ _ _ _ Hq) as (Hds & Hks & Hlds & Hlks).
  rewrite length_map in Hlds, Hlks.
  assert (Hjlt : j < length g) by (by eapply lookup_lt_Some).
  destruct (results_lengths P _ _ Hres) as [Hl1 Hl2].
  pose proof (concat_take_length _ _ t Hl1) as Hlen1.
  pose proof (concat_take_length _ _ t Hl2) as Hlen2.
  rewrite Hlen1 in Hd.
  rewrite (concat_lookup_at (map fst results) t j ds) in Hd;
    [|by rewrite list_lookup_fmap, Hrt|lia].
  rewrite Hlen2 in Hk.
  rewrite (concat_lookup_at (map snd results) t j ks) in Hk;
    [|by rewrite list_lookup_fmap, Hrt|lia].
  destruct (column_distances_Ok _ _ _ _ Hds) as (qe' & [= <-] & _ & Hdist).
  destruct (Hdist j (embedding chunk)) as (e & He & Hdj).
  { by rewrite list_lookup_fmap, Hj. }
  exists qe. split; [done|]. exists l, chunk, e, ds, ks. simpl.
  rewrite Hpm, <- Hg, (place_in_group df.*2 t key g j Hcat Hgt Hjlt).
  repeat split; try done; congruence.
Qed.

Variables (cfg : config) (c : client vec).

Lemma ranks_df_Ok (df : dataframe L vec) (distances : list (list A)) ranks table :
  ranks_df df distances ranks = Ok table ->
  table = set_columns df (concat distances) (concat ranks) /\
  length table = length df /\
  map (fun r => (index r, ranked_meta r)) table
  = map (fun lr => (lr.1, meta lr.2)) df.
Proof.
  unfold ranks_df. case_decide as Hlen; [|done]. intros [= <-].
  destruct Hlen. split; [done|].
  split; [by apply set_columns_length|by apply set_columns_labels].
Qed.

Lemma embed_rows_aligned (df : dataframe L vec) query model w rows w' :
  contiguous df.*2 ->
  Embed.get_chunk_query_distance cfg c df query model w = (Ok rows, w') ->
  exists qe table,
    (get_openai_embedding cfg c query model w).1 = Ok (Some qe) /\
    rows = sort_values table /\
    length table = length df /\
    map index table = df.*1 /\
    forall i r, table !! i = Some r -> own_values df qe i r.
Proof.
  intros Hc Hrun.
  apply embed_get_chunk_query_distance_inv in Hrun
    as (qe0 & results & table & Hget & Hres & Hne & Htable & ->).
  apply ranks_df_Ok in Htable as (-> & Hlen & Hlabels).
  apply for_each_Ok in Hres.
  assert (exists qe, qe0 = Some qe) as [qe ->].
  { destruct Hres as [|[k g] [ds ks] gs results' Hq _]; [done|].
    simpl in Hq. apply query_embeddings_Ok in Hq as (Hds & _).
    destruct (column_distances_Ok _ _ _ _ Hds) as (qe & -> & _). by exists qe. }
  exists qe, (set_columns df (concat (map fst results))
                (concat (map snd results))).
  split; [by rewrite Hget|]. split; [done|]. split; [done|]. split.
  { apply (f_equal (map fst)) in Hlabels.
    rewrite !map_map in Hlabels. exact Hlabels. }
  intros i r Hi.
  destruct (aligned_table (fun qe' => qe' = qe) df results i r Hc)
    as (qe' & -> & Hown); [|done|done].
  eapply Forall2_impl; [exact Hres|]. intros g res Hg. by exists qe.
Qed.




(** *** The engine returns *)






End Alignment.


Lemma two_documents_contiguous : contiguous two_documents.
Proof.
  intros i j k ri rj rk Hi Hj Hk Hij Hjk Hkey.
  destruct i as [|[|[|[|i]]]]; simpl in Hi; try done; injection Hi as <-;
    destruct k as [|[|[|[|k]]]]; simpl in Hk; try done; injection Hk as <-;
    simpl in Hkey; try done; try lia;
    destruct j as [|[|[|[|j]]]]; simpl in Hj; try done; injection Hj as <-;
    try done; lia.
Qed.

(** What [embed.py] returns on [two_documents]. *)
Definition two_documents_ranked : list (ranked_row nat Z) :=
  [RankedRow 1 "A" "a1" 10 20 1%Z 0; RankedRow 3 "B" "b1" 10 20 3%Z 0;
   RankedRow 2 "B" "b0" 0 10 5%Z 1; RankedRow 0 "A" "a0" 0 10 9%Z 1].



(** The same chunks with the two documents interleaved: the rows of a
    [pmcid] no longer stand next to each other. *)
Definition interleaved_documents : list (row (list Z)) :=
  [Row "A" "a0" 0 10 (Some [3; 0; 0]%Z); Row "B" "b0" 0 10 (Some [1; 2; 0]%Z);
   Row "A" "a1" 10 20 (Some [1; 0; 0]%Z); Row "B" "b1" 10 20 (Some [1; 1; 1]%Z)].

(** Without contiguity the values go to the wrong rows: the chunk [b0],
    second row of the table, at squared distance 5 from the query, is
    returned with the distance 1 and the rank 0 of the chunk [a1]. *)
Example interleaved_rows_misaligned :
  (Embed.get_chunk_query_distance default_config origin_embedder
     (DataFrame interleaved_documents) "short" default_model empty_world).1
  = Ok [RankedRow 1 "B" "b0" 0 10 1%Z 0; RankedRow 3 "B" "b1" 10 20 3%Z 0;
        RankedRow 2 "A" "a1" 10 20 5%Z 1; RankedRow 0 "A" "a0" 0 10 9%Z 1] /\
  ~ own_values (DataFrame interleaved_documents) [0; 0; 0]%Z 1
      (RankedRow 1 "B" "b0" 0 10 1%Z 0).
Proof.
  split; [vm_compute; reflexivity|].
  intros (l & chunk & e & ds & ks & Hchunk & _ & _ & _ & _ & _ & He & Hd & _).
  simpl in Hchunk. injection Hchunk as <- <-. simpl in He. injection He as <-.
  vm_compute in Hd. discriminate.
Qed.

(** * Further properties of the code *)

(** ** The retry policy, on every outcome *)

Section RetryOutcomes.
Context {vec : Type}.
Variables (cfg : config) (c : client vec) (input model : string).

(** The provider's answer to the next attempt of the request, after [i]
    attempts of it from the world [w]. *)
Definition answer_after (w : world) (i : nat) : result vec :=
  respond c (requests (after_attempts w input model i)) input model.

Lemma embeddings_create_run w :
  embeddings_create c input model w
  = (answer_after w 0, after_attempts w input model 1).
Proof.
  unfold embeddings_create, answer_after, after_attempts. simpl.
  by rewrite app_nil_r.
Qed.

Lemma answer_after_S w i :
  answer_after (after_attempts w input model 1) i = answer_after w (S i).
Proof. unfold answer_after. by rewrite after_attempts_S. Qed.

Lemma retrying_all_fail more : forall w e,
  (forall i, i < more -> exists e',
      answer_after w i = Raise e' /\ retryable e' = true) ->
  answer_after w more = Raise e -> retryable e = true ->
  retrying more (embeddings_create c input model) w
  = (Raise (RetryError e), after_attempts w input model (S more)).
Proof.
  induction more as [|more IH]; intros w e Hfail Hlast Hre.
  - cbn [retrying]. rewrite embeddings_create_run, Hlast. by rewrite Hre.
  - destruct (Hfail 0) as (e0 & He0 & Hre0); [lia|].
    cbn [retrying]. rewrite embeddings_create_run, He0, Hre0.
    rewrite (IH (after_attempts w input model 1) e).
    + by rewrite after_attempts_S.
    + intros i Hi. rewrite answer_after_S. apply Hfail. lia.
    + by rewrite answer_after_S.
    + done.
Qed.

(** X2. When every one of the [retry_attempts] attempts (more than one
    allowed) fails with an exception of the retried classes, [reexecutor]
    makes exactly [retry_attempts] requests and raises a [RetryError]
    around the exception of the last attempt. *)
Theorem reexecutor_exhausted w e :
  (1 < retry_attempts cfg)%Z ->
  (forall i, i < Z.to_nat (retry_attempts cfg) - 1 -> exists e',
      answer_after w i = Raise e' /\ retryable e' = true) ->
  answer_after w (Z.to_nat (retry_attempts cfg) - 1) = Raise e ->
  retryable e = true ->
  reexecutor cfg (embeddings_create c input model) w
  = (Raise (RetryError e),
     after_attempts w input model (Z.to_nat (retry_attempts cfg))).
Proof.
  intros HN Hfail Hlast Hre. unfold reexecutor.
  rewrite (proj2 (Z.ltb_lt _ _) HN).
  rewrite (retrying_all_fail _ w e Hfail Hlast Hre).
  do 2 f_equal. lia.
Qed.

(** X1. An exception outside the retried classes ends the policy at once:
    [reexecutor] raises that very exception after the attempt that met it,
    without a [RetryError] around it, however many attempts were allowed
    and already made. *)
Theorem reexecutor_fatal_propagates w k e :
  (Z.of_nat k < Z.max 1 (retry_attempts cfg))%Z ->
  (forall i, i < k -> exists e',
      answer_after w i = Raise e' /\ retryable e' = true) ->
  answer_after w k = Raise e -> retryable e = false ->
  reexecutor cfg (embeddings_create c input model) w
  = (Raise e, after_attempts w input model (S k)).
Proof.
  intros Hk Hfail Hlast Hre. unfold reexecutor.
  destruct (1 <? retry_attempts cfg)%Z eqn:HN.
  - apply Z.ltb_lt in HN.
    assert (Hmore : k <= Z.to_nat (retry_attempts cfg) - 1) by lia.
    revert Hmore. generalize (Z.to_nat (retry_attempts cfg) - 1). clear Hk HN.
    revert w Hfail Hlast. induction k as [|k IH]; intros w Hfail Hlast more Hmore.
    + destruct more; cbn [retrying]; rewrite embeddings_create_run, Hlast;
        by rewrite Hre.
    + destruct more as [|more]; [lia|].
      destruct (Hfail 0) as (e0 & He0 & Hre0); [lia|].
      cbn [retrying]. rewrite embeddings_create_run, He0, Hre0.
      rewrite (IH (after_attempts w input model 1)).
      * by rewrite after_attempts_S.
      * intros i Hi. rewrite answer_after_S. apply Hfail. lia.
      * by rewrite answer_after_S.
      * lia.
  - apply Z.ltb_ge in HN. assert (k = 0) as -> by lia.
    by rewrite embeddings_create_run, Hlast.
Qed.

Lemma retrying_attempts more w :
  exists n, n <= more /\
    (retrying more (embeddings_create c input model) w).2
    = after_attempts w input model (S n).
Proof.
  revert w. induction more as [|more IH]; intros w; cbn [retrying];
    rewrite embeddings_create_run.
  - exists 0. split; [done|].
    by destruct (answer_after w 0) as [v|e]; [|destruct (retryable e)].
  - destruct (answer_after w 0) as [v|e]; [by exists 0; split; [lia|]|].
    destruct (retryable e); [|by exists 0; split; [lia|]].
    destruct (IH (after_attempts w input model 1)) as (n & Hn & ->).
    exists (S n). split; [lia|]. apply after_attempts_S.
Qed.

(** X3. Whatever the provider answers, [reexecutor] sends the request at
    least once and at most [retry_attempts] times (once when
    [retry_attempts] is 1 or less), and changes nothing else in the
    world. *)
Theorem reexecutor_attempts_bounded w :
  exists n,
    (reexecutor cfg (embeddings_create c input model) w).2
    = after_attempts w input model n /\
    1 <= n /\ (Z.of_nat n <= Z.max 1 (retry_attempts cfg))%Z.
Proof.
  unfold reexecutor. destruct (1 <? retry_attempts cfg)%Z eqn:HN.
  - apply Z.ltb_lt in HN.
    destruct (retrying_attempts (Z.to_nat (retry_attempts cfg) - 1) w)
      as (n & Hn & ->).
    exists (S n). split; [done|]. lia.
  - apply Z.ltb_ge in HN. exists 1. rewrite embeddings_create_run.
    split; [done|lia].
Qed.

(** X4. With [retry_attempts] at 1 or less there is no retry and no
    [RetryError]: the request is sent once and its outcome, a value or any
    exception, is the outcome of [reexecutor]. *)
Theorem reexecutor_pass_through w :
  (retry_attempts cfg <= 1)%Z ->
  reexecutor cfg (embeddings_create c input model) w
  = (answer_after w 0, after_attempts w input model 1).
Proof.
  intros HN. unfold reexecutor.
  rewrite (proj2 (Z.ltb_ge _ _) HN). apply embeddings_create_run.
Qed.
End RetryOutcomes.

(** A provider that is over its rate limit once and then refuses the
    request for good. *)
Definition busy_then_refused : client (list Z) :=
  Client _ (fun asked _ _ =>
    if decide (length asked < 1) then Raise RateLimitError
    else Raise (OtherError "invalid request")).

Lemma reexecutor_fatal_propagates_witness :
  reexecutor default_config
    (embeddings_create busy_then_refused "text" default_model) empty_world
  = (Raise (OtherError "invalid request"),
     World (replicate 2 ("text", default_model)) [] []).
Proof.
  apply (reexecutor_fatal_propagates default_config busy_then_refused "text"
           default_model empty_world 1 (OtherError "invalid request")).
  - simpl. lia.
  - intros i Hi. exists RateLimitError. assert (i = 0) as -> by lia. by split.
  - reflexivity.
  - reflexivity.
Defined.

Lemma reexecutor_exhausted_witness :
  reexecutor (Config 3 None)
    (embeddings_create always_busy "text" default_model) empty_world
  = (Raise (RetryError RateLimitError),
     World (replicate 3 ("text", default_model)) [] []).
Proof.
  apply (reexecutor_exhausted (Config 3 None) always_busy "text" default_model
           empty_world RateLimitError).
  - simpl. lia.
  - intros i Hi. by exists RateLimitError.
  - reflexivity.
  - reflexivity.
Defined.

Lemma reexecutor_pass_through_witness :
  reexecutor (Config 1 None)
    (embeddings_create always_busy "text" default_model) empty_world
  = (Raise RateLimitError, World [("text", default_model)] [] []).
Proof.
  apply (reexecutor_pass_through (Config 1 None) always_busy "text"
           default_model empty_world).
  simpl. lia.
Defined.

(** ** The embedding client, in both modes *)

Section ClientModes.
Context {vec : Type}.
Variables (cfg : config) (c : client vec) (input model : string).

Lemma get_openai_embedding_soft_outcome w :
  truthy (warn_on_failure cfg) = true ->
  let out := get_openai_embedding cfg c input model w in
  (exists v, out.1 = Ok (Some v) /\ warnings out.2 = warnings w) \/
  (exists e, out.1 = Ok None /\ warnings out.2 = warnings w ++ [e]).
Proof.
  intros Hsoft. unfold get_openai_embedding, bind, try_except, note_client_call.
  simpl. rewrite Hsoft.
  destruct (reexecutor_world cfg c input model
              (World (requests w) (client_calls w ++ [input]) (warnings w)))
    as [n Hn].
  destruct (reexecutor cfg _ _) as [[v|e] w1]; simpl in Hn; subst w1; simpl.
  - left. by exists v.
  - right. by exists e.
Qed.

(** X5. With [PUBLANG_WARN_ON_FAILURE] set, [get_openai_embedding] never
    raises: it returns the embedding and emits no warning, or it returns
    [None] and emits exactly one warning. *)
Theorem get_openai_embedding_fail_soft w :
  truthy (warn_on_failure cfg) = true ->
  let out := get_openai_embedding cfg c input model w in
  (exists v, out.1 = Ok (Some v) /\ warnings out.2 = warnings w) \/
  (exists e, out.1 = Ok None /\ warnings out.2 = warnings w ++ [e]).
Proof. apply get_openai_embedding_soft_outcome. Qed.

(** X6. With [PUBLANG_WARN_ON_FAILURE] unset or empty,
    [get_openai_embedding] never returns [None] and never warns: it
    returns an embedding or raises. *)
Theorem get_openai_embedding_fail_hard w :
  truthy (warn_on_failure cfg) = false ->
  let out := get_openai_embedding cfg c input model w in
  warnings out.2 = warnings w /\
  ((exists v, out.1 = Ok (Some v)) \/ (exists e, out.1 = Raise e)).
Proof.
  intros Hhard. unfold get_openai_embedding, bind, try_except, note_client_call.
  simpl. rewrite Hhard.
  destruct (reexecutor_world cfg c input model
              (World (requests w) (client_calls w ++ [input]) (warnings w)))
    as [n Hn].
  destruct (reexecutor cfg _ _) as [[v|e] w1]; simpl in Hn; subst w1; simpl.
  - split; [done|]. left. by exists v.
  - split; [done|]. right. by exists e.
Qed.
End ClientModes.

Lemma get_openai_embedding_fail_soft_witness :
  let out := get_openai_embedding (Config 3 (Some "1")) always_busy "text"
               default_model empty_world in
  (exists v, out.1 = Ok (Some v) /\ warnings out.2 = []) \/
  (exists e, out.1 = Ok None /\ warnings out.2 = [e]).
Proof.
  apply (get_openai_embedding_fail_soft (Config 3 (Some "1")) always_busy
           "text" default_model empty_world).
  reflexivity.
Defined.

Lemma get_openai_embedding_fail_hard_witness :
  let out := get_openai_embedding default_config busy_twice "text"
               default_model empty_world in
  warnings out.2 = [] /\
  ((exists v, out.1 = Ok (Some v)) \/ (exists e, out.1 = Raise e)).
Proof.
  apply (get_openai_embedding_fail_hard default_config busy_twice "text"
           default_model empty_world).
  reflexivity.
Defined.

(** ** [oai.py]: chat completions *)

(** Python values as they travel in keyword arguments: [None], numbers,
    strings, lists and dicts (keys in order, the first entry of a key
    counts). *)
#[warnings="-register-all"] Inductive pyval : Type :=
  | PNone
  | PNum (n : Z)
  | PStr (s : string)
  | PList (l : list pyval)
  | PDict (d : list (string * pyval)).

(** [d.get(key)]. *)
Fixpoint dict_get (d : list (string * pyval)) (key : string) : pyval :=
  match d with
  | [] => PNone
  | (k, v) :: d' => if String.eqb k key then v else dict_get d' key
  end.

Definition _format_function (output_schema : pyval) : pyval :=
  PList [PDict [("type", PStr "function");
                ("function",
                 PDict [("name", PStr "extractData");
                        ("description", PStr "Extract data from scientific text");
                        ("parameters", output_schema)])]].

Inductive chat_mode := JsonMode | FunctionMode | TextMode.

Definition is_None (v : pyval) : bool :=
  match v with PNone => true | _ => false end.

Definition is_json_object (v : pyval) : bool :=
  match v with PStr s => String.eqb s "json_object" | _ => false end.

(** The [if]/[elif]/[else] that sets [mode].  Only a dict has [get]: on a
    string, a number or a list the test itself raises. *)
Definition select_mode (response_format output_schema : pyval)
  : result chat_mode :=
  let by_schema := if is_None output_schema then TextMode else FunctionMode in
  match response_format with
  | PNone => Ok by_schema
  | PDict d =>
      if is_json_object (dict_get d "type") then Ok JsonMode else Ok by_schema
  | _ => Raise (OtherError "AttributeError: object has no attribute 'get'")
  end.

(** A message of the completion: its [content] and, for each of its
    [tool_calls], the [function.arguments] text. *)
Record message := Message {
  msg_content : option string;
  msg_tool_calls : option (list string)
}.

Inductive chat_response (json : Type) :=
  | Parsed (j : json)
  | Text (content : option string).
Arguments Parsed {json} j.
Arguments Text {json} content.

Section ChatCompletion.
Context {json : Type}.
(** [json.loads] on a string. *)
Variable json_loads : string -> result json.
(** [client.chat.completions.create] on the keyword arguments, returning
    the messages of [completion.choices]. *)
Variable chat_create : gmap string pyval -> M (list message).
Variable cfg : config.

(** The keyword arguments of the provider call. *)
Definition chat_kwargs (mode : chat_mode) (messages output_schema : pyval)
    (model : string) (temperature timeout response_format : pyval)
    (kwargs : gmap string pyval) : gmap string pyval :=
  let kwargs :=
    match mode with
    | FunctionMode => <["tools" := _format_function output_schema]> kwargs
    | _ => kwargs
    end in
  <["response_format" := response_format]>
    (<["timeout" := timeout]>
       (<["temperature" := temperature]>
          (<["messages" := messages]>
             (<["model" := PStr model]> kwargs)))).

Definition json_loads_content (content : option string) : result json :=
  match content with
  | Some s => json_loads s
  | None => Raise (OtherError "TypeError: the JSON object must be str, not NoneType")
  end.

(** What is made of the first message, by mode. *)
Definition chat_result (mode : chat_mode) (m : message)
  : result (chat_response json) :=
  match mode with
  | FunctionMode =>
      match msg_tool_calls m with
      | None =>
          Raise (ValueError ("No tool calls found in completion. Message: "
                             +:+ default "None" (msg_content m)))
      | Some [] => Raise IndexError
      | Some (arguments :: _) => Parsed <$> json_loads arguments
      end
  | JsonMode => Parsed <$> json_loads_content (msg_content m)
  | TextMode => Ok (Text (msg_content m))
  end.

Definition get_openai_chatcompletion (messages output_schema : pyval)
    (model : string) (temperature timeout response_format : pyval)
    (kwargs : gmap string pyval) : M (chat_response json) :=
  let* mode := lift (select_mode response_format output_schema) in
  let kwargs := chat_kwargs mode messages output_schema model temperature
                  timeout response_format kwargs in
  let* choices := reexecutor cfg (chat_create kwargs) in
  match choices with
  | [] => raise IndexError
  | m :: _ => lift (chat_result mode m)
  end.
End ChatCompletion.

Section ChatFacts.
Context {json : Type}.
Variable json_loads : string -> result json.
Variable chat_create : gmap string pyval -> M (list message).
Variable cfg : config.

Local Abbreviation chat :=
  (get_openai_chatcompletion json_loads chat_create cfg).

(** X7. In function mode (an [output_schema], no [json_object] response
    format) a completion whose first message has no tool calls makes
    [get_openai_chatcompletion] raise a [ValueError] that quotes the
    content of the message; nothing is parsed and no text is returned. *)
Theorem chat_no_tool_calls messages output_schema model temperature timeout
    response_format kwargs w m choices w' :
  select_mode response_format output_schema = Ok FunctionMode ->
  reexecutor cfg
    (chat_create (chat_kwargs FunctionMode messages output_schema model
                    temperature timeout response_format kwargs)) w
  = (Ok (m :: choices), w') ->
  msg_tool_calls m = None ->
  chat messages output_schema model temperature timeout response_format kwargs w
  = (Raise (ValueError ("No tool calls found in completion. Message: "
                        +:+ default "None" (msg_content m))), w').
Proof.
  intros Hmode Hrun Hnone.
  unfold get_openai_chatcompletion, bind, lift. rewrite Hmode, Hrun.
  unfold chat_result. by rewrite Hnone.
Qed.

(** X8. The mode decides what is returned: raw text only in text mode
    (neither a schema nor a [json_object] response format), a parsed JSON
    value in the two other modes. *)
Theorem chat_result_by_mode messages output_schema model temperature timeout
    response_format kwargs w r w' :
  chat messages output_schema model temperature timeout response_format kwargs w
  = (Ok r, w') ->
  exists mode,
    select_mode response_format output_schema = Ok mode /\
    match mode with
    | TextMode => exists content, r = Text content
    | _ => exists j, r = Parsed j
    end.
Proof.
  unfold get_openai_chatcompletion, bind, lift.
  destruct (select_mode response_format output_schema) as [mode|e]; [|done].
  destruct (reexecutor cfg _ w) as [[[|m choices]|e] w1]; try done.
  intros [= Hr <-]. exists mode. split; [done|].
  destruct mode; simpl in Hr.
  - destruct (json_loads_content json_loads (msg_content m)) as [j|e];
      [|done]. injection Hr as <-. by exists j.
  - destruct (msg_tool_calls m) as [[|arguments calls]|]; try done.
    destruct (json_loads arguments) as [j|e]; [|done].
    injection Hr as <-. by exists j.
  - injection Hr as <-. by eexists.
Qed.

(** X9. A [response_format] of type [json_object] takes precedence: the
    [output_schema] is then ignored altogether (no tools are sent and the
    content is parsed, not the tool calls). *)
Theorem chat_json_object_ignores_schema messages output_schema model
    temperature timeout d kwargs :
  dict_get d "type" = PStr "json_object" ->
  chat messages output_schema model temperature timeout (PDict d) kwargs
  = chat messages PNone model temperature timeout (PDict d) kwargs.
Proof.
  intros Htype. unfold get_openai_chatcompletion, select_mode.
  by rewrite Htype.
Qed.

(** X10. A [response_format] given as a string, as the signature
    announces it, is refused before anything is sent: the call raises and
    the world is left as it was. *)
Theorem chat_string_response_format messages output_schema model temperature
    timeout s kwargs w :
  exists e,
    get_openai_chatcompletion json_loads chat_create cfg messages
      output_schema model temperature timeout (PStr s) kwargs w
    = (Raise e, w).
Proof. by eexists. Qed.

(** X11. The keyword arguments sent to the provider: the five named
    parameters are always set; [tools] is the formatted [output_schema] in
    function mode, replacing a [tools] of the caller, and the caller's (if
    any) in the other modes; every other keyword of the caller is passed
    on unchanged. *)
Theorem chat_kwargs_lookup mode messages output_schema model temperature
    timeout response_format kwargs :
  let sent := chat_kwargs mode messages output_schema model temperature
                timeout response_format kwargs in
  sent !! "model" = Some (PStr model) /\
  sent !! "messages" = Some messages /\
  sent !! "temperature" = Some temperature /\
  sent !! "timeout" = Some timeout /\
  sent !! "response_format" = Some response_format /\
  sent !! "tools"
  = match mode with
    | FunctionMode => Some (_format_function output_schema)
    | _ => kwargs !! "tools"
    end /\
  forall key,
    key ∉ ["model"; "messages"; "temperature"; "timeout"; "response_format";
           "tools"] ->
    sent !! key = kwargs !! key.
Proof.
  unfold chat_kwargs. repeat split.
  - by simplify_map_eq.
  - by simplify_map_eq.
  - by simplify_map_eq.
  - by simplify_map_eq.
  - by simplify_map_eq.
  - destruct mode; by simplify_map_eq.
  - intros key Hkey.
    rewrite !not_elem_of_cons in Hkey.
    destruct Hkey as (? & ? & ? & ? & ? & ? & _).
    destruct mode; by simplify_map_eq.
Qed.
End ChatFacts.

(** A provider for examples that answers every chat request with one
    message of text and no tool call. *)
Definition plain_answer : gmap string pyval -> M (list message) :=
  fun _ w => (Ok [Message (Some "No groups.") None], w).

Lemma chat_no_tool_calls_witness :
  get_openai_chatcompletion (json := string) (fun s => Ok s) plain_answer
    default_config (PList []) (PDict [("type", PStr "object")])
    "gpt-4-0125-preview" (PNum 0) (PNum 30) PNone ∅ empty_world
  = (Raise (ValueError "No tool calls found in completion. Message: No groups."),
     empty_world).
Proof.
  apply (chat_no_tool_calls (json := string) (fun s => Ok s) plain_answer
           default_config (PList []) (PDict [("type", PStr "object")])
           "gpt-4-0125-preview" (PNum 0) (PNum 30) PNone ∅ empty_world
           (Message (Some "No groups.") None) [] empty_world);
    reflexivity.
Defined.

Lemma chat_result_by_mode_witness :
  exists mode,
    select_mode PNone PNone = Ok mode /\
    match mode with
    | TextMode => exists content, Text (json := string) (Some "No groups.")
                                  = Text content
    | _ => exists j : string, Text (json := string) (Some "No groups.")
                              = Parsed j
    end.
Proof.
  apply (chat_result_by_mode (json := string) (fun s => Ok s) plain_answer
           default_config (PList []) PNone "gpt-4-0125-preview" (PNum 0)
           (PNum 30) PNone ∅ empty_world (Text (Some "No groups."))
           empty_world).
  reflexivity.
Defined.

Lemma chat_json_object_ignores_schema_witness :
  get_openai_chatcompletion (json := string) (fun s => Ok s) plain_answer
    default_config (PList []) (PDict [("type", PStr "object")])
    "gpt-4-0125-preview" (PNum 0) (PNum 30)
    (PDict [("type", PStr "json_object")]) ∅
  = get_openai_chatcompletion (json := string) (fun s => Ok s) plain_answer
      default_config (PList []) PNone
      "gpt-4-0125-preview" (PNum 0) (PNum 30)
      (PDict [("type", PStr "json_object")]) ∅.
Proof.
  apply (chat_json_object_ignores_schema (json := string) (fun s => Ok s)
           plain_answer default_config).
  reflexivity.
Defined.

(** ** The embedding pipeline: edge cases, progress and fail-soft runs *)

Section PipelineRuns.
Context {vec : Type}.
Variable split_pmc_document : string -> Z -> Z -> list chunk.
Variables (cfg : config) (c : client vec).
Variables (model : string) (min_chars max_chars : Z).

Local Abbreviation pool_step :=
  (pool_step split_pmc_document cfg c model min_chars max_chars).
Local Abbreviation run_pool :=
  (run_pool split_pmc_document cfg c model min_chars max_chars).
Local Abbreviation embed_pmc_articles :=
  (embed_pmc_articles split_pmc_document cfg c model min_chars max_chars).

(** X12. On an empty list of articles [embed_pmc_articles] returns the
    empty list and touches nothing: no thread has anything to do, no call
    is made, under the one scheduling there is (the empty one). *)
Theorem embed_pmc_articles_empty num_workers w :
  (0 < num_workers)%Z ->
  embed_pmc_articles [] num_workers [] w = Some (Ok [], w) /\
  forall sched out,
    embed_pmc_articles [] num_workers sched w = Some out -> out = (Ok [], w).
Proof.
  intros Hpos. unfold embed_pmc_articles.
  rewrite (proj2 (Z.leb_gt _ _) Hpos). split; [done|].
  intros [|[|k] sched] out; simpl; [|done|done].
  by intros [= <-].
Qed.

(** The steps a pool still has to take at most: two more than its chunks
    for a queued article, one more than the chunks left for a thread. *)
Definition steps_left (p : @pool vec) : nat :=
  sum_list_with (fun q => 2 + length (split_pmc_document (art_text q.2)
                                        min_chars max_chars)) (queue p)
  + sum_list_with (fun t => 1 + length (th_todo t)) (running p).

Lemma sum_list_with_insert {X} (f : X -> nat) (l : list X) k x y :
  l !! k = Some x ->
  sum_list_with f (<[k:=y]> l) + f x = sum_list_with f l + f y.
Proof.
  revert k. induction l as [|z l IH]; intros [|k] Hk; simpl in *; try done.
  - injection Hk as ->. lia.
  - specialize (IH k Hk). lia.
Qed.

Lemma sum_list_with_delete {X} (f : X -> nat) (l : list X) k x :
  l !! k = Some x -> sum_list_with f (delete k l) + f x = sum_list_with f l.
Proof.
  revert k. induction l as [|z l IH]; intros [|k] Hk; simpl in *; try done.
  - injection Hk as ->. lia.
  - specialize (IH k Hk). lia.
Qed.

Lemma pool_step_steps_left workers ch p p' :
  pool_step workers ch p = Some p' -> steps_left p' < steps_left p.
Proof.
  unfold steps_left. destruct ch as [|k]; simpl.
  - destruct (queue p) as [|[i a] q]; [done|]. case_decide; [|done].
    intros [= <-]. simpl. rewrite sum_list_with_app. simpl. lia.
  - destruct (running p !! k) as [t|] eqn:Hk; [|done].
    unfold advance_thread. destruct (th_todo t) as [|ch todo] eqn:Htodo.
    + intros [= <-]. simpl.
      pose proof (sum_list_with_delete (fun t => 1 + length (th_todo t))
                    _ _ _ Hk) as Hd.
      simpl in Hd. lia.
    + destruct (get_openai_embedding cfg c (ch_content ch) model (pool_world p))
        as [[res|e] w1]; intros [= <-]; simpl.
      * pose proof (sum_list_with_insert (fun t => 1 + length (th_todo t))
                      _ k t (Thread (th_future t) (th_pmcid t) todo
                        (th_done t ++ [Row (th_pmcid t) (ch_content ch)
                                         (ch_start ch) (ch_end ch) res])) Hk)
          as Hi.
        simpl in Hi. rewrite Htodo in Hi. simpl in Hi. lia.
      * pose proof (sum_list_with_delete (fun t => 1 + length (th_todo t))
                      _ _ _ Hk) as Hd.
        simpl in Hd. lia.
Qed.

Lemma run_pool_steps_left workers sched p p' :
  run_pool workers sched p = Some p' ->
  length sched + steps_left p' <= steps_left p.
Proof.
  revert p. induction sched as [|ch sched IH]; intros p; simpl.
  - intros [= <-]. lia.
  - destruct (pool_step workers ch p) as [p1|] eqn:Hstep; [|done].
    intros Hrun. specialize (IH p1 Hrun).
    pose proof (pool_step_steps_left _ _ _ _ Hstep). lia.
Qed.

(** X13. No run of the pool goes on for ever: a scheduling that the pool
    can follow has at most two steps per article and one per chunk. *)
Theorem embed_pmc_articles_steps_bounded articles num_workers sched w out :
  (0 < num_workers)%Z ->
  embed_pmc_articles articles num_workers sched w = Some out ->
  length sched
  <= 2 * length articles
     + length (concat (map (fun a => split_pmc_document (art_text a)
                                       min_chars max_chars) articles)).
Proof.
  intros Hpos. unfold embed_pmc_articles.
  rewrite (proj2 (Z.leb_gt _ _) Hpos).
  destruct (run_pool _ sched _) as [p|] eqn:Hrun; [|done]. intros _.
  apply run_pool_steps_left in Hrun.
  assert (Hinit : forall arts n,
            sum_list_with (fun q : nat * article =>
                        2 + length (split_pmc_document (art_text q.2)
                                      min_chars max_chars))
                       (enumerate_from n arts)
            = 2 * length arts
              + length (concat (map (fun a => split_pmc_document (art_text a)
                                                min_chars max_chars) arts))).
  { induction arts as [|a arts IH]; intros n; simpl; [done|].
    rewrite IH, length_app. lia. }
  unfold steps_left, submit_all, enumerate in Hrun. simpl in Hrun.
  rewrite Hinit in Hrun. lia.
Qed.

(** The first thread at work, left alone, runs to its end. *)
Lemma head_thread_runs_out workers q rest fs todo : forall t w,
  th_todo t = todo ->
  exists sched fs' w',
    run_pool workers sched (Pool q (t :: rest) fs w)
    = Some (Pool q rest fs' w').
Proof.
  induction todo as [|ch todo IH]; intros t w Htodo.
  - exists [Advance 0]. eexists _, _. simpl.
    unfold advance_thread. by rewrite Htodo.
  - destruct (get_openai_embedding cfg c (ch_content ch) model w)
      as [[res|e] w1] eqn:Hget.
    + destruct (IH (Thread (th_future t) (th_pmcid t) todo
                      (th_done t ++ [Row (th_pmcid t) (ch_content ch)
                                       (ch_start ch) (ch_end ch) res])) w1 eq_refl)
        as (sched & fs' & w' & Hrun).
      exists (Advance 0 :: sched), fs', w'. simpl.
      unfold advance_thread. by rewrite Htodo, Hget.
    + exists [Advance 0]. eexists _, _. simpl.
      unfold advance_thread. by rewrite Htodo, Hget.
Qed.

Lemma running_runs_out workers q running : forall fs w,
  exists sched fs' w',
    run_pool workers sched (Pool q running fs w) = Some (Pool q [] fs' w').
Proof.
  induction running as [|t running IH]; intros fs w.
  - by exists [], fs, w.
  - destruct (head_thread_runs_out workers q running fs _ t w eq_refl)
      as (s1 & fs1 & w1 & Hrun1).
    destruct (IH fs1 w1) as (s2 & fs2 & w2 & Hrun2).
    exists (s1 ++ s2), fs2, w2.
    by rewrite run_pool_app, Hrun1.
Qed.

Lemma advance_thread_future (a : article) (t : @thread vec) w :
  True ->
  match advance_thread cfg c model t w with
  | (inl t', _) => th_future t' = th_future t /\ True
  | (inr r, _) => True
  end.
Proof.
  intros _. unfold advance_thread. destruct (th_todo t) as [|ch todo]; [done|].
  by destruct (get_openai_embedding cfg c (ch_content ch) model w)
    as [[res|e] w1].
Qed.

(** X14. The pool never gets stuck: with at least one worker, whatever
    has been scheduled so far, the run can be continued to the point where
    every article is done and [embed_pmc_articles] returns. *)
Theorem embed_pmc_articles_never_stuck articles num_workers sched w p :
  (0 < num_workers)%Z ->
  run_pool (Z.to_nat num_workers) sched (submit_all articles w) = Some p ->
  exists sched' out,
    embed_pmc_articles articles num_workers (sched ++ sched') w = Some out.
Proof.
  intros Hpos Hrun.
  destruct p as [q running fs w0].
  destruct (running_runs_out (Z.to_nat num_workers) q running fs w0)
    as (s1 & fs1 & w1 & Hrun1).
  destruct (queue_runs_out split_pmc_document cfg c model min_chars max_chars
              (Z.to_nat num_workers) q fs1 w1) as (s2 & p' & Hrun2 & Hdone);
    [lia|].
  assert (Hall : run_pool (Z.to_nat num_workers) (sched ++ s1 ++ s2)
                   (submit_all articles w) = Some p').
  { rewrite run_pool_app, Hrun. simpl. by rewrite run_pool_app, Hrun1. }
  pose proof (run_pool_inv split_pmc_document cfg c model min_chars max_chars
                (fun _ _ => True) (fun _ _ => True)
                (fun _ _ => I) advance_thread_future
                articles _ _ _ _ Hall
                (submit_all_inv _ _ articles w)) as Hinv.
  assert (Hgather : forall rest k results,
            (forall j a, rest !! j = Some a -> articles !! (k + j) = Some a) ->
            exists r, gather p' (seq k (length rest)) results = Some r).
  { induction rest as [|a rest IH]; intros k results Hrest; simpl; [by eexists|].
    destruct (future_result_done (fun _ _ => True) (fun _ _ => True)
                articles p' k a Hinv Hdone) as (r & -> & _).
    { rewrite <- (Nat.add_0_r k). by apply Hrest. }
    destruct r as [rows|e]; [|by eexists].
    apply IH. intros j a' Hj.
    replace (S k + j) with (k + S j) by lia. by apply Hrest. }
  destruct (Hgather articles 0 []) as [r Hr]; [done|].
  exists (s1 ++ s2), (r, pool_world p').
  unfold embed_pmc_articles. rewrite (proj2 (Z.leb_gt _ _) Hpos).
  by rewrite Hall, Hdone, Hr.
Qed.
End PipelineRuns.

Section FailSoftPipeline.
Context {vec : Type}.
Variable split_pmc_document : string -> Z -> Z -> list chunk.
Variables (cfg : config) (c : client vec).
Variables (model : string) (min_chars max_chars : Z).
Hypothesis fail_soft : truthy (warn_on_failure cfg) = true.

Local Abbreviation pool_step :=
  (pool_step split_pmc_document cfg c model min_chars max_chars).
Local Abbreviation run_pool :=
  (run_pool split_pmc_document cfg c model min_chars max_chars).
Local Abbreviation embed_pmc_articles :=
  (embed_pmc_articles split_pmc_document cfg c model min_chars max_chars).

(** The rows left without an embedding. *)
Definition omitted (rows : list (row vec)) : nat :=
  length (filter (fun r => embedding r = None) rows).

Definition omitted_in (r : result (list (row vec))) : nat :=
  match r with Ok rows => omitted rows | Raise _ => 0 end.

Definition returns_rows (a : article) (r : result (list (row vec))) : Prop :=
  exists rows, r = Ok rows.

Lemma advance_thread_fail_soft (a : article) (t : @thread vec) w :
  True ->
  match advance_thread cfg c model t w with
  | (inl t', _) => th_future t' = th_future t /\ True
  | (inr r, _) => returns_rows a r
  end.
Proof.
  intros _. unfold advance_thread.
  destruct (th_todo t) as [|ch todo]; [by eexists|].
  destruct (get_openai_embedding_soft_outcome cfg c (ch_content ch) model w
              fail_soft) as [(v & Hv & _)|(e & He & _)];
    destruct (get_openai_embedding cfg c (ch_content ch) model w)
      as [[res|e'] w1]; simpl in *; done.
Qed.

(** The calls of [warnings.warn] so far are as many as the rows left
    without an embedding so far, in the threads at work and in the
    resolved futures. *)
Definition warned (w0 : world) (p : @pool vec) : Prop :=
  length (warnings (pool_world p))
  = length (warnings w0)
    + sum_list_with (fun t => omitted (th_done t)) (running p)
    + sum_list_with (fun f => omitted_in f.2) (futures p).

Lemma omitted_snoc rows r :
  omitted (rows ++ [r])
  = omitted rows + (if embedding r is None then 1 else 0).
Proof.
  unfold omitted. rewrite filter_app, length_app. f_equal.
  destruct r as [? ? ? ? [v|]]; by rewrite filter_cons; simpl.
Qed.

Lemma pool_step_warned w0 workers ch p p' :
  pool_step workers ch p = Some p' -> warned w0 p -> warned w0 p'.
Proof.
  unfold warned. destruct ch as [|k]; simpl.
  - destruct (queue p) as [|[i a] q]; [done|]. case_decide; [|done].
    intros [= <-]. simpl. rewrite sum_list_with_app. simpl. unfold omitted.
    simpl. lia.
  - destruct (running p !! k) as [t|] eqn:Hk; [|done].
    unfold advance_thread. destruct (th_todo t) as [|ch todo] eqn:Htodo.
    + intros [= <-] Hw. simpl.
      pose proof (sum_list_with_delete (fun t => omitted (th_done t))
                    _ _ _ Hk) as Hd.
      simpl in Hd. lia.
    + pose proof (get_openai_embedding_soft_outcome cfg c (ch_content ch) model
                    (pool_world p) fail_soft) as Hfs.
      destruct (get_openai_embedding cfg c (ch_content ch) model (pool_world p))
        as [[res|e'] w1]; simpl in Hfs;
        [|by destruct Hfs as [(v & Hv & _)|(e & He & _)]].
      intros [= <-] Hw. simpl.
      pose proof (sum_list_with_insert (fun t => omitted (th_done t))
                    _ k t (Thread (th_future t) (th_pmcid t) todo
                      (th_done t ++ [Row (th_pmcid t) (ch_content ch)
                                       (ch_start ch) (ch_end ch) res])) Hk)
        as Hi.
      simpl in Hi. rewrite omitted_snoc in Hi. simpl in Hi.
      destruct Hfs as [(v & [= ->] & Hwarn)|(e & [= ->] & Hwarn)];
        rewrite Hwarn; [|rewrite length_app; simpl]; lia.
Qed.

Lemma run_pool_warned w0 workers sched p p' :
  run_pool workers sched p = Some p' -> warned w0 p -> warned w0 p'.
Proof.
  revert p. induction sched as [|ch sched IH]; intros p; simpl.
  - by intros [= <-].
  - destruct (pool_step workers ch p) as [p1|] eqn:Hstep; [|done].
    intros Hrun Hw. apply (IH p1 Hrun). by eapply pool_step_warned.
Qed.

Lemma omitted_app rows1 rows2 :
  omitted (rows1 ++ rows2) = omitted rows1 + omitted rows2.
Proof. unfold omitted. by rewrite filter_app, length_app. Qed.

Lemma gather_omitted (p : @pool vec) ids results out :
  gather p ids results = Some (Ok out) ->
  omitted out
  = omitted results
    + sum_list_with (fun i => from_option omitted_in 0 (future_result p i)) ids.
Proof.
  revert results. induction ids as [|i ids IH]; intros results; simpl.
  - intros [= <-]. lia.
  - destruct (future_result p i) as [[rows|e]|]; [|done|done].
    intros Hout. rewrite (IH _ Hout), omitted_app. simpl. lia.
Qed.

Lemma future_result_lookup (p : @pool vec) f :
  NoDup (futures p).*1 -> f ∈ futures p -> future_result p f.1 = Some f.2.
Proof.
  intros Hnd Hf. unfold future_result.
  destruct (list_find_elem_of (fun f' => f'.1 = f.1) (futures p) f Hf eq_refl)
    as [[n f'] Hfind].
  rewrite Hfind. simpl. f_equal.
  apply list_find_Some in Hfind as (Hn & Heq & _).
  apply list_elem_of_lookup in Hf as [m Hm].
  assert (n = m) as ->.
  { apply (NoDup_lookup (futures p).*1 n m f.1); [done|..];
      rewrite list_lookup_fmap; [by rewrite Hn; simpl; f_equal|by rewrite Hm]. }
  congruence.
Qed.

(** X15. In fail-soft mode the pipeline never raises: every run that
    completes returns one row per chunk of every article, in the order of
    the input, and [warnings.warn] was called during the run as many
    times as rows are returned without an embedding, once for each.
    (These are the calls; the warnings filter may show fewer of them.) *)
Theorem embed_pmc_articles_fail_soft articles num_workers sched w out w' :
  (0 < num_workers)%Z ->
  embed_pmc_articles articles num_workers sched w = Some (out, w') ->
  exists rows,
    out = Ok rows /\
    map meta rows
    = concat (map (article_metas split_pmc_document min_chars max_chars)
                articles) /\
    length (warnings w') = length (warnings w) + omitted rows.
Proof.
  intros Hpos Hrun. assert (Hrun' := Hrun).
  unfold embed_pmc_articles in Hrun.
  rewrite (proj2 (Z.leb_gt _ _) Hpos) in Hrun.
  destruct (run_pool _ sched _) as [p|] eqn:Hpool; [|done].
  destruct (pool_done p) eqn:Hdone; [|done].
  pose proof (run_pool_inv split_pmc_document cfg c model min_chars max_chars
                (fun _ _ => True) returns_rows
                (fun _ _ => I) advance_thread_fail_soft
                articles _ _ _ _ Hpool
                (submit_all_inv _ _ articles w)) as Hinv.
  assert (Hwarned : warned w p).
  { apply (run_pool_warned w _ _ _ _ Hpool). unfold warned, submit_all. simpl. lia. }
  destruct (gather p (seq 0 (length articles)) []) as [r|] eqn:Hgather; [|done].
  simpl in Hrun. injection Hrun as <- <-.
  assert (Hok : forall ids results r',
            (forall i, i ∈ ids -> i < length articles) ->
            gather p ids results = Some r' -> exists rows, r' = Ok rows).
  { induction ids as [|i ids IH]; intros results r' Hids; simpl.
    - intros [= <-]. by eexists.
    - destruct (lookup_lt_is_Some_2 articles i) as [a Ha].
      { apply Hids. left. }
      destruct (future_result_done (fun _ _ => True) returns_rows
                  articles p i a Hinv Hdone Ha) as (ri & -> & rows & ->).
      apply IH. intros j Hj. apply Hids. by right. }
  destruct (Hok (seq 0 (length articles)) [] r) as [rows ->];
    [intros i Hi; apply elem_of_seq in Hi; lia|done|].
  exists rows. split; [done|]. split.
  { by apply (embed_pmc_articles_metas _ _ _ _ _ _ _ _ _ _ _ _ Hrun'). }
  destruct Hinv as (_ & _ & _ & Hids).
  unfold pool_done in Hdone.
  destruct (queue p) eqn:Hq; [|done]. destruct (running p) eqn:Hr; [|done].
  simpl in Hids. unfold warned in Hwarned. rewrite Hr in Hwarned.
  simpl in Hwarned.
  rewrite Hwarned, (gather_omitted p _ _ _ Hgather).
  change (omitted []) with 0.
  enough (Hsum : sum_list_with (fun f => omitted_in f.2) (futures p)
                 = sum_list_with
                     (fun i => from_option omitted_in 0 (future_result p i))
                     (seq 0 (length articles))) by lia.
  rewrite <- Hids.
  assert (Hnd : NoDup (futures p).*1) by (rewrite Hids; apply NoDup_seq).
  assert (Hsame : forall fs, (forall f, f ∈ fs -> f ∈ futures p) ->
            sum_list_with (fun f => omitted_in f.2) fs
            = sum_list_with
                (fun i => from_option omitted_in 0 (future_result p i)) fs.*1).
  { induction fs as [|f fs IH]; intros Hfs; simpl; [done|].
    rewrite (future_result_lookup p f Hnd) by (apply Hfs; left). simpl.
    rewrite IH; [done|]. intros f' Hf'. apply Hfs. by right. }
  by apply Hsame.
Qed.
End FailSoftPipeline.

(** ** Ranking, further *)

Lemma insert_sorted_map {X Y} (lt : X -> X -> bool) (lt' : Y -> Y -> bool)
    (f : X -> Y) x l :
  (forall y, y ∈ l -> lt' (f y) (f x) = lt y x) ->
  insert_sorted lt' (f x) (map f l) = map f (insert_sorted lt x l).
Proof.
  induction l as [|y l IH]; intros Hlt; simpl; [done|].
  rewrite (Hlt y) by left. destruct (lt y x); [|done].
  simpl. f_equal. apply IH. intros z Hz. apply Hlt. by right.
Qed.

Lemma sorted_map {X Y} (lt : X -> X -> bool) (lt' : Y -> Y -> bool)
    (f : X -> Y) l :
  (forall x y, x ∈ l -> y ∈ l -> lt' (f x) (f y) = lt x y) ->
  sorted lt' (map f l) = map f (sorted lt l).
Proof.
  induction l as [|x l IH]; intros Hlt; simpl; [done|].
  rewrite IH by (intros y z Hy Hz; apply Hlt; by right).
  apply insert_sorted_map. intros y Hy. rewrite sorted_perm in Hy.
  apply Hlt; [by right|left].
Qed.

Lemma assign_ranks_indices {X Y} (s : list (X * nat)) (s' : list (Y * nat)) :
  s.*2 = s'.*2 ->
  forall k ranks,
    assign_ranks (enumerate_from k s) ranks
    = assign_ranks (enumerate_from k s') ranks.
Proof.
  revert s'. induction s as [|[x i] s IH]; intros [|[y j] s'] Hidx k ranks;
    simpl in *; try done.
  injection Hidx as -> Hidx.
  destruct (list_setitem ranks j k) as [ranks'|e]; simpl; [|done].
  by apply IH.
Qed.

(** X16. The ranks depend on the order of the numbers only: numbers put
    through a function that keeps their comparisons (as squaring does for
    distances) get the same ranks. *)
Theorem rank_numbers_monotone {A B} `{PyOrd A} `{PyOrd B} (g : A -> B)
    (numbers : list A) :
  (forall x y, x ∈ numbers -> y ∈ numbers ->
     py_lt (g x) (g y) = py_lt x y /\ py_eq (g x) (g y) = py_eq x y) ->
  _rank_numbers (map g numbers) = _rank_numbers numbers.
Proof.
  intros Hg. unfold _rank_numbers. rewrite length_map.
  fold (tuples (map g numbers)). fold (tuples numbers).
  assert (Htuples : tuples (map g numbers)
                    = map (fun p => (g p.1, p.2)) (tuples numbers)).
  { apply list_eq. intros i.
    rewrite list_lookup_fmap, !tuples_lookup, list_lookup_fmap.
    by destruct (numbers !! i). }
  rewrite Htuples, (sorted_map tuple_lt tuple_lt).
  - apply assign_ranks_indices. rewrite <- list_fmap_compose.
    by apply list_fmap_ext.
  - intros [x i] [y j] Hx%tuples_elem%list_elem_of_lookup_2
                       Hy%tuples_elem%list_elem_of_lookup_2.
    unfold tuple_lt. simpl. by destruct (Hg x y Hx Hy) as [-> ->].
Qed.

Lemma rank_numbers_monotone_witness :
  _rank_numbers (map (fun x => x * x)%Z [3; 1; 2; 1]%Z)
  = _rank_numbers [3; 1; 2; 1]%Z.
Proof.
  apply (rank_numbers_monotone (fun x => x * x)%Z [3; 1; 2; 1]%Z).
  intros x y Hx Hy.
  repeat (apply elem_of_cons in Hx as [->|Hx]);
    try (by apply elem_of_nil in Hx);
    repeat (apply elem_of_cons in Hy as [->|Hy]);
    try (by apply elem_of_nil in Hy); by split.
Defined.

(** X17. Numbers that never descend from one to the next (ties included)
    keep their order: the ranks are 0, 1, ..., n-1. *)
Theorem rank_numbers_ascending_input `{PyOrd A} (numbers : list A) :
  (forall i x y, numbers !! i = Some x -> numbers !! S i = Some y ->
     py_lt y x = false) ->
  _rank_numbers numbers = Ok (seq 0 (length numbers)).
Proof.
  intros Hasc.
  assert (Hsorted : sorted tuple_lt (tuples numbers) = tuples numbers).
  { unfold tuples, enumerate. generalize 0 as n.
    induction numbers as [|x numbers IH]; intros n; simpl; [done|].
    rewrite IH by (intros i y z Hy Hz; by apply (Hasc (S i))).
    destruct numbers as [|y numbers]; simpl; [done|].
    unfold tuple_lt at 1. simpl.
    rewrite (Hasc 0 x y eq_refl eq_refl).
    destruct (py_eq y x); [|done].
    by rewrite (proj2 (Nat.ltb_ge _ _)) by lia. }
  destruct (rank_numbers_spec numbers) as (ranks & -> & Hlen & Hpos).
  f_equal. apply list_eq. intros i.
  destruct (numbers !! i) as [x|] eqn:Hi.
  - rewrite (Hpos i x i) by (by rewrite Hsorted, tuples_lookup, Hi).
    symmetry. apply lookup_seq. split; [done|]. by eapply lookup_lt_Some.
  - apply lookup_ge_None in Hi.
    rewrite lookup_seq_ge by done. apply lookup_ge_None. lia.
Qed.

Lemma rank_numbers_ascending_input_witness :
  _rank_numbers [1; 1; 5; 5; 7]%Z = Ok (seq 0 5).
Proof.
  apply (rank_numbers_ascending_input [1; 1; 5; 5; 7]%Z).
  intros [|[|[|[|[|i]]]]] x y Hx Hy; simpl in *; try done;
    injection Hx as <-; injection Hy as <-; reflexivity.
Defined.

(** ** The query engine, further *)

Lemma converts_present {vec} (embeddings : list (option vec)) :
  Forall is_Some embeddings -> converts embeddings = true.
Proof.
  intros Hall. unfold converts, np_array.
  by destruct (as_matrix_present embeddings Hall) as (X & -> & _).
Qed.

Section EngineResults.
Context {L vec A : Type} `{PyOrd A} `{Metrics vec A}.
Variables (cfg : config) (c : client vec).

(** X18. What [embed.py] returns is the table itself, rearranged: every
    row of the input appears once, under its own label and with its
    meta-data, and the rows stand by ascending distance.  So the labels
    returned are the labels of the input, and every row returned is a row
    of the input as to its label and its meta-data. *)
Theorem embed_result_is_table_sorted `{!TotalOrd A} (df : dataframe L vec)
    query model w rows w' :
  Embed.get_chunk_query_distance cfg c df query model w = (Ok rows, w') ->
  ascending rows /\
  map (fun r => (index r, ranked_meta r)) rows
  ≡ₚ map (fun lr => (lr.1, meta lr.2)) df /\
  map index rows ≡ₚ df.*1 /\
  forall r, r ∈ rows ->
    exists chunk, (index r, chunk) ∈ df /\ ranked_meta r = meta chunk.
Proof.
  intros Hrun.
  apply embed_get_chunk_query_distance_inv in Hrun
    as (qe & results & table & _ & _ & _ & Htable & ->).
  apply ranks_df_Ok in Htable as (-> & _ & Hlabels).
  split; [apply sort_values_ascending|].
  assert (Hperm : map (fun r => (index r, ranked_meta r))
                    (sort_values (set_columns df (concat (map fst results))
                                    (concat (map snd results))))
                  ≡ₚ map (fun lr => (lr.1, meta lr.2)) df).
  { rewrite <- Hlabels. apply Permutation_map, sort_values_perm. }
  split; [done|]. split.
  - apply (Permutation_map fst) in Hperm. by rewrite !map_map in Hperm.
  - intros r Hr.
    assert (Hin : (index r, ranked_meta r)
                  ∈ map (fun lr : L * row vec => (lr.1, meta lr.2)) df).
    { rewrite <- Hperm. apply list_elem_of_fmap. by exists r. }
    apply list_elem_of_fmap in Hin as ([l chunk] & Heq & Hin).
    simpl in Heq. apply pair_equal_spec in Heq as [Hl Hm].
    exists chunk. split; [by rewrite Hl|done].
Qed.

(** X19. What [query.py] returns is the table in its own order: row by
    row the labels of the input, whatever they are, and its meta-data,
    with the two new columns. *)
Theorem query_result_keeps_order (df : dataframe L vec) query num_workers
    w rows w' :
  Query.get_chunk_query_distance cfg c df query num_workers w = (Ok rows, w') ->
  map index rows = df.*1 /\
  map ranked_meta rows = map meta df.*2.
Proof.
  unfold Query.get_chunk_query_distance.
  destruct (num_workers <=? 0)%Z; [done|]. unfold bind, lift.
  destruct (Query.run_futures _ w) as [rs w1].
  destruct (for_each (fun future => future) rs) as [results|e]; [|done].
  destruct results as [|res0 results]; [done|]. simpl.
  destruct (ranks_df df _ _) as [table|e] eqn:Htable; [|done].
  intros [= <- <-].
  apply ranks_df_Ok in Htable as (_ & _ & Hlabels).
  split.
  - apply (f_equal (map fst)) in Hlabels. by rewrite !map_map in Hlabels.
  - apply (f_equal (map snd)) in Hlabels. rewrite !map_map in Hlabels.
    etrans; [exact Hlabels|]. clear.
    induction df as [|[l r] df IH]; simpl; [done|]. f_equal. exact IH.
Qed.

(** X20. [embed.py] asks for the embedding of the query exactly once on
    every table, whether the call then returns a table or raises. *)
Theorem embed_embeds_query_once (df : dataframe L vec) query model w :
  client_calls (Embed.get_chunk_query_distance (A := A) cfg c df query model w).2
  = client_calls w ++ [query].
Proof. apply embed_get_chunk_query_distance_calls. Qed.

(** X21. [query.py] asks for the embedding of the query once for every
    document of the table whose [embedding] column [np.array] accepts (a
    column that holds vectors and [None] is refused before the call): as
    many calls of the embedding client as there are such documents, and
    so one for every distinct [pmcid] when no row lacks its embedding. *)
Theorem query_embeds_query_per_document (df : dataframe L vec) query
    num_workers w :
  (0 < num_workers)%Z ->
  let calls :=
    client_calls
      (Query.get_chunk_query_distance (A := A) cfg c df query num_workers w).2 in
  calls
  = client_calls w
    ++ replicate
         (length (filter (fun g => converts (map embedding g.2) = true)
                    (groupby df.*2))) query /\
  (Forall (fun r => is_Some (embedding r)) df.*2 ->
   calls
   = client_calls w ++ replicate (length (unique (map pmcid df.*2))) query).
Proof.
  intros Hpos calls. subst calls.
  rewrite (query_get_chunk_query_distance_calls (A := A) cfg c df query
             num_workers w Hpos).
  split; [done|]. intros Hall. do 2 f_equal.
  rewrite filter_all; [unfold groupby; by rewrite length_map|].
  apply Forall_forall. intros g Hg. apply converts_present.
  apply Forall_fmap, Forall_forall. intros r Hr.
  rewrite Forall_forall in Hall. apply Hall. by apply (groupby_rows _ g).
Qed.

(** X22. On an empty table neither module returns an empty result:
    [get_chunk_query_distance] raises ([zip] of nothing cannot be
    unpacked), in [embed.py] after the embedding of the query has been
    asked for, in [query.py] without any call. *)
Theorem empty_table_raises query model num_workers w :
  (0 < num_workers)%Z ->
  (exists e w',
      Embed.get_chunk_query_distance (L := L) (A := A) cfg c [] query model w
      = (Raise e, w') /\
      client_calls w' = client_calls w ++ [query]) /\
  (exists e,
      Query.get_chunk_query_distance (L := L) (A := A) cfg c [] query
        num_workers w
      = (Raise e, w)).
Proof.
  intros Hpos. split.
  - pose proof (embed_get_chunk_query_distance_calls (L := L) (A := A) cfg c []
                  query model w) as Hcalls.
    unfold Embed.get_chunk_query_distance, bind, lift in *. simpl in *.
    destruct (get_openai_embedding cfg c query model w) as [[qe|e] w1];
      simpl in *; by eexists _, _.
  - unfold Query.get_chunk_query_distance.
    rewrite (proj2 (Z.leb_gt _ _) Hpos). by eexists.
Qed.

(** X23. With a stateless provider a query can be repeated: running
    [embed.py]'s [get_chunk_query_distance] again, from the world the
    first run left, returns the same table or raises the same
    exception. *)
Theorem embed_query_repeatable (df : dataframe L vec) query model w :
  stateless c ->
  let first := Embed.get_chunk_query_distance (A := A) cfg c df query model w in
  (Embed.get_chunk_query_distance (A := A) cfg c df query model first.2).1
  = first.1.
Proof.
  intros Hst first. subst first.
  generalize (Embed.get_chunk_query_distance (A := A) cfg c df query model w).2.
  intros w2. unfold Embed.get_chunk_query_distance, bind.
  pose proof (get_openai_embedding_stateless cfg c model Hst query w2 w) as Heq.
  destruct (get_openai_embedding cfg c query model w2) as [[qe2|e2] u2],
           (get_openai_embedding cfg c query model w) as [[qe|e] u];
    simpl in Heq; try discriminate; injection Heq as ->; [|done].
  unfold lift, ret.
  destruct (for_each _ (groupby df.*2)) as [results|e]; [|done].
  destruct (unzip_results results) as [[distances ranks]|e]; [|done].
  by destruct (ranks_df df distances ranks).
Qed.
End EngineResults.

Section RanksWithinDocument.
Context {L vec A : Type} `{PyOrd A} `{Metrics vec A}.
Variables (cfg : config) (c : client vec).

Lemma rows_of_take_le (df : list (row vec)) k i j :
  i <= j ->
  length (rows_of k (take i df)) <= length (rows_of k (take j df)).
Proof.
  intros Hij. rewrite <- (take_drop i (take j df)).
  rewrite take_take, Nat.min_l by done.
  unfold rows_of. rewrite filter_app, length_app. lia.
Qed.

(** A later row of the same [pmcid] has a later place in its group. *)
Lemma rows_of_take_lt (df : list (row vec)) i j ri :
  i < j -> df !! i = Some ri ->
  length (rows_of (pmcid ri) (take i df))
  < length (rows_of (pmcid ri) (take j df)).
Proof.
  intros Hij Hi.
  pose proof (rows_of_take_le df (pmcid ri) (S i) j Hij) as Hle.
  rewrite (take_S_r df i ri Hi) in Hle.
  unfold rows_of in *. rewrite filter_app, length_app in Hle.
  rewrite filter_cons_True in Hle by done. simpl in Hle. lia.
Qed.

Lemma rank_numbers_rank_unique (numbers : list A) ranks a b r :
  _rank_numbers numbers = Ok ranks ->
  ranks !! a = Some r -> ranks !! b = Some r ->
  r < length numbers /\ a = b.
Proof.
  intros Hrun Ha Hb.
  pose proof (rank_numbers_length numbers ranks Hrun) as Hlen.
  destruct (lookup_lt_is_Some_2 numbers a) as [x Hx].
  { rewrite <- Hlen. by eapply lookup_lt_Some. }
  destruct (lookup_lt_is_Some_2 numbers b) as [y Hy].
  { rewrite <- Hlen. by eapply lookup_lt_Some. }
  destruct (rank_numbers_place numbers ranks a x Hrun Hx) as (ra & Hsa & Hra).
  destruct (rank_numbers_place numbers ranks b y Hrun Hy) as (rb & Hsb & Hrb).
  assert (ra = r) as -> by congruence. assert (rb = r) as -> by congruence.
  split; [|congruence].
  apply lookup_lt_Some in Hsa. by rewrite sorted_length, tuples_length in Hsa.
Qed.

(** In a table that gives every row its own values, the ranks of a
    document are below the number of its chunks, and two rows of a
    document with the same rank are one row. *)
Lemma table_ranks_distinct (df : dataframe L vec) qe
    (table : list (ranked_row L A)) i r1 :
  (forall i r, table !! i = Some r -> own_values df qe i r) ->
  table !! i = Some r1 ->
  rank r1 < length (rows_of (r_pmcid r1) df.*2) /\
  forall j r2, table !! j = Some r2 ->
    r_pmcid r2 = r_pmcid r1 -> rank r2 = rank r1 -> j = i.
Proof.
  intros Hown Hr1.
  destruct (Hown i r1 Hr1)
    as (l1 & ch1 & e1 & ds1 & ks1 & Hch1 & _ & Hpm1 & _ & _ & _ & _ & _ &
        Hq1 & Hd1 & Hk1).
  destruct (query_embeddings_Ok _ _ _ _ Hq1) as (_ & Hrank1 & Hlds & _).
  rewrite length_map in Hlds.
  destruct (rank_numbers_rank_unique ds1 ks1 _ _ _ Hrank1 Hk1 Hk1) as [Hlt _].
  split; [by rewrite Hpm1, <- Hlds|].
  intros j r2 Hr2 Hpm Hrank.
  destruct (Hown j r2 Hr2)
    as (l2 & ch2 & e2 & ds2 & ks2 & Hch2 & _ & Hpm2 & _ & _ & _ & _ & _ &
        Hq2 & _ & Hk2).
  assert (Hkey : pmcid ch2 = pmcid ch1) by congruence.
  rewrite Hkey, Hq1 in Hq2. injection Hq2 as <- <-.
  rewrite Hkey, Hrank in Hk2.
  destruct (rank_numbers_rank_unique ds1 ks1 _ _ _ Hrank1 Hk1 Hk2) as [_ Hplace].
  assert (Hrow1 : df.*2 !! i = Some ch1) by (by rewrite list_lookup_fmap, Hch1).
  assert (Hrow2 : df.*2 !! j = Some ch2) by (by rewrite list_lookup_fmap, Hch2).
  destruct (Nat.lt_trichotomy i j) as [Hlt'|[?|Hlt']]; [|done|].
  - pose proof (rows_of_take_lt df.*2 _ _ ch1 Hlt' Hrow1). lia.
  - pose proof (rows_of_take_lt df.*2 _ _ ch2 Hlt' Hrow2) as Hp.
    rewrite Hkey in Hp. lia.
Qed.

Lemma NoDup_fmap_elem {X Y} (f : X -> Y) (l : list X) x y :
  NoDup (f <$> l) -> x ∈ l -> y ∈ l -> f x = f y -> x = y.
Proof.
  intros Hnd [i Hi]%list_elem_of_lookup [j Hj]%list_elem_of_lookup Hf.
  assert (i = j) as ->; [|congruence].
  apply (NoDup_lookup (f <$> l) i j (f x)); [done|..];
    rewrite list_lookup_fmap; [by rewrite Hi|by rewrite Hj, Hf].
Qed.

(** X24. In a table with the rows of each [pmcid] next to each other, the
    rows [embed.py] returns for one document carry ranks that are below
    the number of its chunks and differ from row to row: each document is
    ranked 0, 1, ... on its own, and no two rows of the result have the
    same [pmcid] and the same rank. *)
Theorem embed_ranks_within_document (df : dataframe L vec) query model
    w rows w' :
  contiguous df.*2 ->
  Embed.get_chunk_query_distance (A := A) cfg c df query model w
  = (Ok rows, w') ->
  NoDup ((fun r => (r_pmcid r, rank r)) <$> rows) /\
  forall r1, r1 ∈ rows ->
    rank r1 < length (rows_of (r_pmcid r1) df.*2) /\
    forall r2, r2 ∈ rows ->
      r_pmcid r2 = r_pmcid r1 -> rank r2 = rank r1 -> r2 = r1.
Proof.
  intros Hc Hrun.
  destruct (embed_rows_aligned cfg c df query model w rows w' Hc Hrun)
    as (qe & table & _ & -> & _ & _ & Hown).
  assert (Hnd : NoDup ((fun r => (r_pmcid r, rank r)) <$> sort_values table)).
  { rewrite sort_values_perm. apply NoDup_alt. intros i j key Hi Hj.
    rewrite list_lookup_fmap in Hi, Hj.
    destruct (table !! i) as [r1|] eqn:Hr1; [|done].
    destruct (table !! j) as [r2|] eqn:Hr2; [|done].
    simpl in Hi, Hj. injection Hi as <-. injection Hj as Hpm Hrank.
    destruct (table_ranks_distinct df qe table i r1 Hown Hr1) as [_ Hsame].
    symmetry. by apply (Hsame j r2). }
  split; [done|]. intros r1 Hr1. split.
  - rewrite sort_values_perm in Hr1.
    apply list_elem_of_lookup in Hr1 as [i Hi].
    by destruct (table_ranks_distinct df qe table i r1 Hown Hi).
  - intros r2 Hr2 Hpm Hrank.
    apply (NoDup_fmap_elem _ _ _ _ Hnd Hr2 Hr1). by rewrite Hpm, Hrank.
Qed.
End RanksWithinDocument.

(** ** The further properties on examples *)

Definition two_articles : list article :=
  [Article "PMC1" "short sentence."; Article "PMC2" "another one."].

(** Each article in turn: start it, embed its two chunks, return. *)
Definition in_turn : list choice :=
  [Start; Advance 0; Advance 0; Advance 0;
   Start; Advance 0; Advance 0; Advance 0].

(** A provider that refuses one text for good and embeds every other text
    as its length. *)
Definition refuses_sentence : client (list Z) :=
  Client _ (fun _ input _ =>
    if String.eqb input " sentence."
    then Raise (OtherError "content policy")
    else Ok [Z.of_nat (String.length input)]).

Lemma embed_pmc_articles_empty_witness :
  embed_pmc_articles split_at_five default_config length_embedder
    default_model 30 4000 [] 8 [] empty_world = Some (Ok [], empty_world) /\
  forall sched out,
    embed_pmc_articles split_at_five default_config length_embedder
      default_model 30 4000 [] 8 sched empty_world = Some out ->
    out = (Ok [], empty_world).
Proof.
  apply (embed_pmc_articles_empty split_at_five default_config length_embedder
           default_model 30 4000 8 empty_world).
  lia.
Defined.

Lemma embed_pmc_articles_steps_bounded_witness :
  length in_turn
  <= 2 * length two_articles
     + length (concat (map (fun a => split_at_five (art_text a) 30 4000)
                         two_articles)).
Proof.
  apply (embed_pmc_articles_steps_bounded split_at_five default_config
           length_embedder default_model 30 4000 two_articles 1 in_turn
           empty_world
           (Ok [Row "PMC1" "short" 0 5 (Some [5%Z]);
                Row "PMC1" " sentence." 5 15 (Some [10%Z]);
                Row "PMC2" "anoth" 0 5 (Some [5%Z]);
                Row "PMC2" "er one." 5 12 (Some [7%Z])],
            World (map (fun t => (t, default_model))
                     ["short"; " sentence."; "anoth"; "er one."])
              ["short"; " sentence."; "anoth"; "er one."] [])).
  - lia.
  - vm_compute. reflexivity.
Defined.

Lemma embed_pmc_articles_never_stuck_witness :
  exists sched' out,
    embed_pmc_articles split_at_five default_config length_embedder
      default_model 30 4000 two_articles 8
      ([Start; Start; Advance 1] ++ sched') empty_world = Some out.
Proof.
  apply (embed_pmc_articles_never_stuck split_at_five default_config
           length_embedder default_model 30 4000 two_articles 8
           [Start; Start; Advance 1] empty_world
           (Pool [] [Thread 0 "PMC1"
                       [Chunk "short" 0 5; Chunk " sentence." 5 15] [];
                     Thread 1 "PMC2" [Chunk "er one." 5 12]
                       [Row "PMC2" "anoth" 0 5 (Some [5%Z])]]
              [] (World [("anoth", default_model)] ["anoth"] []))).
  - lia.
  - vm_compute. reflexivity.
Defined.

Lemma embed_pmc_articles_fail_soft_witness :
  let rows :=
    [Row "PMC1" "short" 0 5 (Some [5%Z]); Row "PMC1" " sentence." 5 15 None;
     Row "PMC2" "anoth" 0 5 (Some [5%Z]); Row "PMC2" "er one." 5 12 (Some [7%Z])] in
  exists rows',
    Ok rows = Ok rows' /\
    map meta rows'
    = concat (map (article_metas split_at_five 30 4000) two_articles) /\
    length [OtherError "content policy"] = length (@nil exn) + omitted rows'.
Proof.
  intros rows.
  apply (embed_pmc_articles_fail_soft split_at_five (Config 50 (Some "1"))
           refuses_sentence default_model 30 4000 eq_refl two_articles 1
           in_turn empty_world (Ok rows)
           (World (map (fun t => (t, default_model))
                     ["short"; " sentence."; "anoth"; "er one."])
              ["short"; " sentence."; "anoth"; "er one."]
              [OtherError "content policy"])).
  - lia.
  - vm_compute. reflexivity.
Defined.

(** The rows of [two_documents] under labels of their own, as a table
    has them that was cut out of a larger one. *)
Definition two_documents_labelled : dataframe nat (list Z) :=
  zip [7; 3; 5; 1] two_documents.

Lemma embed_result_is_table_sorted_witness :
  ascending two_documents_ranked /\
  map (fun r => (index r, ranked_meta r)) two_documents_ranked
  ≡ₚ map (fun lr => (lr.1, meta lr.2)) (DataFrame two_documents) /\
  map index two_documents_ranked ≡ₚ [0; 1; 2; 3] /\
  forall r, r ∈ two_documents_ranked ->
    exists chunk,
      (index r, chunk) ∈ DataFrame two_documents /\
      ranked_meta r = meta chunk.
Proof.
  apply (embed_result_is_table_sorted default_config origin_embedder
           (DataFrame two_documents) "short" default_model empty_world
           two_documents_ranked
           (World [("short", default_model)] ["short"] [])).
  vm_compute. reflexivity.
Defined.

Lemma query_result_keeps_order_witness :
  let rows :=
    [RankedRow 7 "A" "a0" 0 10 9%Z 1; RankedRow 3 "A" "a1" 10 20 1%Z 0;
     RankedRow 5 "B" "b0" 0 10 5%Z 1; RankedRow 1 "B" "b1" 10 20 3%Z 0] in
  map index rows = [7; 3; 5; 1] /\
  map ranked_meta rows = map meta two_documents.
Proof.
  intros rows.
  apply (query_result_keeps_order default_config origin_embedder
           two_documents_labelled "short" 1 empty_world rows
           (World (replicate 2 ("short", default_model)) ["short"; "short"] [])).
  vm_compute. reflexivity.
Defined.

(** A table of three documents; the second holds a vector and a [None],
    the third no vector at all. *)
Definition three_documents : list (row (list Z)) :=
  [Row "A" "a0" 0 10 (Some [3; 0; 0]%Z);
   Row "B" "b0" 0 10 (Some [1; 2; 0]%Z); Row "B" "b1" 10 20 None;
   Row "C" "c0" 0 10 None].

Lemma query_embeds_query_per_document_witness :
  client_calls
    (Query.get_chunk_query_distance (A := Z) default_config origin_embedder
       (DataFrame three_documents) "short" 1 empty_world).2
  = ["short"; "short"] /\
  client_calls
    (Query.get_chunk_query_distance (A := Z) default_config origin_embedder
       (DataFrame interleaved_documents) "short" 1 empty_world).2
  = ["short"; "short"].
Proof.
  split.
  - apply (proj1 (query_embeds_query_per_document (A := Z) default_config
                    origin_embedder (DataFrame three_documents) "short" 1
                    empty_world ltac:(lia))).
  - apply (proj2 (query_embeds_query_per_document (A := Z) default_config
                    origin_embedder (DataFrame interleaved_documents) "short" 1
                    empty_world ltac:(lia))).
    repeat constructor; by eexists.
Defined.

Lemma empty_table_raises_witness :
  (exists e w',
      Embed.get_chunk_query_distance (L := nat) (A := Z) default_config
        origin_embedder [] "short" default_model empty_world = (Raise e, w') /\
      client_calls w' = ["short"]) /\
  (exists e,
      Query.get_chunk_query_distance (L := nat) (A := Z) default_config
        origin_embedder [] "short" 1 empty_world = (Raise e, empty_world)).
Proof.
  apply (empty_table_raises (L := nat) (A := Z) default_config origin_embedder
           "short" default_model 1 empty_world).
  lia.
Defined.

Lemma embed_query_repeatable_witness :
  let first := Embed.get_chunk_query_distance (A := Z) default_config
                 origin_embedder (DataFrame two_documents) "short"
                 default_model empty_world in
  (Embed.get_chunk_query_distance (A := Z) default_config origin_embedder
     (DataFrame two_documents) "short" default_model first.2).1
  = first.1.
Proof.
  apply (embed_query_repeatable (A := Z) default_config origin_embedder
           (DataFrame two_documents) "short" default_model empty_world).
  intros ? ? ?. reflexivity.
Defined.

Lemma embed_ranks_within_document_witness :
  rank (RankedRow 3 "B" "b1" 10 20 3%Z 0) < length (rows_of "B" two_documents) /\
  forall r2, r2 ∈ two_documents_ranked ->
    r_pmcid r2 = "B" -> rank r2 = 0 -> r2 = RankedRow 3 "B" "b1" 10 20 3%Z 0.
Proof.
  refine (proj2 (embed_ranks_within_document (A := Z) default_config
                   origin_embedder (DataFrame two_documents) "short"
                   default_model empty_world two_documents_ranked
                   (World [("short", default_model)] ["short"] [])
                   two_documents_contiguous _)
            (RankedRow 3 "B" "b1" 10 20 3%Z 0) _).
  - vm_compute. reflexivity.
  - unfold two_documents_ranked. apply elem_of_cons. right.
    apply elem_of_cons. by left.
Defined.

(** ** Ranks and distances in the returned table *)

Lemma rank_numbers_order `{TotalOrd A} (numbers : list A) ranks a b da db ra rb :
  _rank_numbers numbers = Ok ranks ->
  numbers !! a = Some da -> numbers !! b = Some db ->
  ranks !! a = Some ra -> ranks !! b = Some rb ->
  (ra < rb <-> py_lt da db = true \/ (da = db /\ a < b)).
Proof.
  intros Hrun Ha Hb Hra Hrb.
  destruct (rank_numbers_place numbers ranks a da Hrun Ha) as (ra' & Hsa & Hra').
  destruct (rank_numbers_place numbers ranks b db Hrun Hb) as (rb' & Hsb & Hrb').
  assert (ra' = ra) as -> by congruence.
  assert (rb' = rb) as -> by congruence.
  rewrite <- tuple_lt_spec.
  apply (sorted_lookup_lt tuple_lt tuple_lt_irrefl tuple_lt_trans tuple_lt_total
           (sorted tuple_lt (tuples numbers))); [| |done|done].
  - apply sorted_sorted_strict;
      [apply tuple_lt_irrefl|apply tuple_lt_trans|apply tuple_lt_total].
  - rewrite sorted_perm. apply tuples_NoDup.
Qed.

Section RankOrder.
Context {L vec A : Type} `{TotalOrd A} `{Metrics vec A}.
Variables (cfg : config) (c : client vec).

(** In a table that gives every row its own values, the ranks of a
    document follow its distances, and the places in the table where the
    distances are equal. *)
Lemma table_rank_order (df : dataframe L vec) qe
    (table : list (ranked_row L A)) i j r1 r2 :
  (forall i r, table !! i = Some r -> own_values df qe i r) ->
  table !! i = Some r1 -> table !! j = Some r2 -> r_pmcid r1 = r_pmcid r2 ->
  (rank r1 < rank r2 <->
   py_lt (distance r1) (distance r2) = true \/
   (distance r1 = distance r2 /\ i < j)).
Proof.
  intros Hown Hr1 Hr2 Hpm.
  destruct (Hown i r1 Hr1)
    as (l1 & ch1 & e1 & ds & ks & Hch1 & _ & Hpm1 & _ & _ & _ & _ & _ &
        Hq1 & Hd1 & Hk1).
  destruct (Hown j r2 Hr2)
    as (l2 & ch2 & e2 & ds2 & ks2 & Hch2 & _ & Hpm2 & _ & _ & _ & _ & _ &
        Hq2 & Hd2 & Hk2).
  assert (Hkey : pmcid ch2 = pmcid ch1) by congruence.
  rewrite Hkey, Hq1 in Hq2. injection Hq2 as <- <-. rewrite Hkey in Hd2, Hk2.
  destruct (query_embeddings_Ok _ _ _ _ Hq1) as (_ & Hrank & _ & _).
  rewrite (rank_numbers_order ds ks _ _ _ _ _ _ Hrank Hd1 Hd2 Hk1 Hk2).
  assert (Hrow1 : df.*2 !! i = Some ch1) by (by rewrite list_lookup_fmap, Hch1).
  assert (Hplace : length (rows_of (pmcid ch1) (take i df.*2))
                   < length (rows_of (pmcid ch1) (take j df.*2))
                   <-> i < j).
  { split.
    - intros Hlt.
      destruct (decide (i < j)) as [|Hge]; [done|].
      pose proof (rows_of_take_le df.*2 (pmcid ch1) j i). lia.
    - intros Hlt. by apply rows_of_take_lt. }
  by rewrite Hplace.
Qed.

(** X25. In the table [embed.py] returns for an input with the rows of each
    [pmcid] next to each other, the ranks of one document follow its
    distances: of two rows of a document, the one with the smaller
    distance has the lower rank, and at equal distances the one that comes
    first in the input.  The result is a rearrangement of a table that has
    the labels of the input row by row, and there the place of a row
    says which comes first; where no label of the input occurs twice, the
    place of the label of a row in the index of the input says it (for
    the labels 0, 1, ..., the label itself). *)
Theorem embed_rank_follows_distance (df : dataframe L vec) query model
    w rows w' :
  contiguous df.*2 ->
  Embed.get_chunk_query_distance cfg c df query model w = (Ok rows, w') ->
  (exists table,
      rows ≡ₚ table /\ map index table = df.*1 /\
      forall i j r1 r2,
        table !! i = Some r1 -> table !! j = Some r2 ->
        r_pmcid r1 = r_pmcid r2 ->
        (rank r1 < rank r2 <->
         py_lt (distance r1) (distance r2) = true \/
         (distance r1 = distance r2 /\ i < j))) /\
  (NoDup df.*1 ->
   forall r1 r2 i j,
     r1 ∈ rows -> r2 ∈ rows -> r_pmcid r1 = r_pmcid r2 ->
     df.*1 !! i = Some (index r1) -> df.*1 !! j = Some (index r2) ->
     (rank r1 < rank r2 <->
      py_lt (distance r1) (distance r2) = true \/
      (distance r1 = distance r2 /\ i < j))).
Proof.
  intros Hc Hrun.
  destruct (embed_rows_aligned cfg c df query model w rows w' Hc Hrun)
    as (qe & table & _ & -> & _ & Hlabels & Hown).
  split.
  - exists table. split; [apply sort_values_perm|]. split; [done|].
    intros i j r1 r2. by apply (table_rank_order df qe table).
  - intros Hnd r1 r2 i j Hr1 Hr2 Hpm Hi Hj.
    rewrite sort_values_perm in Hr1, Hr2.
    apply list_elem_of_lookup in Hr1 as [i' Hi'].
    apply list_elem_of_lookup in Hr2 as [j' Hj'].
    assert (i' = i) as ->.
    { apply (NoDup_lookup df.*1 i' i (index r1) Hnd); [|done].
      by rewrite <- Hlabels, list_lookup_fmap, Hi'. }
    assert (j' = j) as ->.
    { apply (NoDup_lookup df.*1 j' j (index r2) Hnd); [|done].
      by rewrite <- Hlabels, list_lookup_fmap, Hj'. }
    by apply (table_rank_order df qe table).
Qed.
End RankOrder.

Lemma embed_rank_follows_distance_witness :
  rank (RankedRow 3 "B" "b1" 10 20 3%Z 0) < rank (RankedRow 2 "B" "b0" 0 10 5%Z 1)
  <-> (3 <? 5)%Z = true \/ (3%Z = 5%Z /\ 3 < 2).
Proof.
  refine (proj2 (embed_rank_follows_distance default_config origin_embedder
                   (DataFrame two_documents) "short" default_model empty_world
                   two_documents_ranked
                   (World [("short", default_model)] ["short"] [])
                   two_documents_contiguous _)
            _ (RankedRow 3 "B" "b1" 10 20 3%Z 0)
            (RankedRow 2 "B" "b0" 0 10 5%Z 1) 3 2 _ _ _ _ _).
  - vm_compute. reflexivity.
  - exact (NoDup_seq 0 4).
  - unfold two_documents_ranked. apply elem_of_cons. right.
    apply elem_of_cons. by left.
  - unfold two_documents_ranked. do 2 (apply elem_of_cons; right).
    apply elem_of_cons. by left.
  - reflexivity.
  - reflexivity.
  - reflexivity.
Defined.
